(** * The VCI directory auditor (vci-directory-auditor/src/index.ts)

    A shallow embedding of the auditor's three functions, [getDuplicates],
    [fetchDirectory] and [audit], and the properties its specification
    states about them.

    JavaScript strings are modelled by [string], arrays by [list], an
    optional field ([errors?], [newIssuerCount?], ...) by [option], and a
    [Set] by its list of elements in insertion order. *)

From Stdlib Require Import Ascii.
From stdpp Require Import base decidable option numbers list strings.

Local Open Scope nat_scope.

(** ** JavaScript built-ins used by the auditor *)

Module Js.

(** [Array.prototype.includes] on an array of strings. *)
Definition includes (array : list string) (x : string) : bool :=
  bool_decide (x ∈ array).

(** [ToBoolean] of a string: only the empty string is falsy. *)
Definition truthyString (s : string) : bool :=
  match s with
  | EmptyString => false
  | String _ _ => true
  end.

(** [ToBoolean] of what a callback returns when it either returns a
    string or falls off its end ([undefined], here [None]). *)
Definition truthyReturn (r : option string) : bool :=
  match r with
  | None => false
  | Some s => truthyString s
  end.

(** [Array.prototype.filter] with a callback that reads and updates a
    captured variable of type [St]: the callback is run on the elements
    from left to right, and an element is kept when the callback's result
    is truthy. *)
Fixpoint filterSt {St A R : Type} (truthy : R → bool)
    (callback : St → A → St * R) (st : St) (array : list A) : list A :=
  match array with
  | [] => []
  | item :: rest =>
      let '(st', r) := callback st item in
      if truthy r then item :: filterSt truthy callback st' rest
      else filterSt truthy callback st' rest
  end.

(** [Array.prototype.reduce] with an initial value. *)
Definition reduce {A B : Type} (f : B → A → B) (init : B) (array : list A) : B :=
  foldl f init array.

(** [Array.prototype.forEach] with a callback that updates a captured
    variable of type [St]. *)
Definition forEach {St A : Type} (callback : St → A → St) (st : St)
    (array : list A) : St :=
  foldl callback st array.

(** [Array.prototype.map] is [fmap] on lists, and [Array.prototype.flatMap]
    is their bind [≫=]. *)

(** [Array.prototype.push]. *)
Definition push {A : Type} (array : list A) (x : A) : list A := array ++ [x].

(** A [Set] of strings, as the list of its elements in insertion order. *)
Module StringSet.
Definition t := list string.

Definition has (s : t) (x : string) : bool := bool_decide (x ∈ s).

Definition add (s : t) (x : string) : t := if has s x then s else s ++ [x].

Definition delete (s : t) (x : string) : t := filter (λ y, y ≠ x) s.

(** [new Set(array)] *)
Definition new (array : list string) : t := foldl add [] array.

(** [Array.from(set)] *)
Definition toArray (s : t) : list string := s.
End StringSet.

End Js.

(** ** [getDuplicates] (index.ts, lines 144-154) *)

(** The callback given to [filter]: [set] is the captured variable; the
    result is [None] where the source falls off the end of the callback. *)
Definition getDuplicates_callback (set : Js.StringSet.t) (item : string)
  : Js.StringSet.t * option string :=
  if Js.StringSet.has set item then (Js.StringSet.delete set item, None)
  else (set, Some item).

Definition getDuplicates (array : list string) : list string :=
  let set := Js.StringSet.new array in
  let duplicates := Js.filterSt Js.truthyReturn getDuplicates_callback set array in
  Js.StringSet.toArray (Js.StringSet.new duplicates).

(** Number of occurrences of [v] in [items]. *)
Definition count (items : list string) (v : string) : nat :=
  length (filter (λ y, y = v) items).

(** ** Regular expressions of the shape the auditor uses

    A pattern is a sequence of atoms, each matching one character: a literal
    character or the class [\d]. *)

Module RegExp.

Inductive atom :=
| Lit (c : ascii)
| Digit.

Definition t := list atom.

(** [\d] matches the ten characters [0] to [9]. *)
Definition isDigit (c : ascii) : bool :=
  (48 <=? nat_of_ascii c) && (nat_of_ascii c <=? 57).

Definition atomMatches (a : atom) (c : ascii) : bool :=
  match a with
  | Lit c' => Ascii.eqb c c'
  | Digit => isDigit c
  end.

(** Match the pattern at the start of [s]: the rest of [s] behind the
    match, or [None]. *)
Fixpoint matchAt (re : t) (s : string) : option string :=
  match re with
  | [] => Some s
  | a :: re' =>
      match s with
      | EmptyString => None
      | String c s' => if atomMatches a c then matchAt re' s' else None
      end
  end.

(** [s.replace(re, by)] for a pattern without the [g] flag and a
    replacement text without [$]: the leftmost match is replaced, and a
    string without a match is returned as it is. *)
Fixpoint replace (re : t) (by_ : string) (s : string) : string :=
  match matchAt re s with
  | Some rest => by_ +:+ rest
  | None =>
      match s with
      | EmptyString => EmptyString
      | String c s' => String c (replace re by_ s')
      end
  end.

(** [re.test(s)]: the pattern matches somewhere in [s]. *)
Fixpoint test (re : t) (s : string) : bool :=
  match matchAt re s with
  | Some _ => true
  | None =>
      match s with
      | EmptyString => false
      | String _ s' => test re s'
      end
  end.

(** The pattern of a literal text. *)
Fixpoint lit (s : string) : t :=
  match s with
  | EmptyString => []
  | String c s' => Lit c :: lit s'
  end.

End RegExp.

(** ** Interfaces (index.ts, lines 16-57) *)

Module TrustedIssuer.
Record t := mk { iss : string; name : string }.
End TrustedIssuer.

Module TrustedIssuers.
Record t := mk { participating_issuers : list TrustedIssuer.t }.
End TrustedIssuers.

(** A [JWK.Key] of node-jose: the auditor reads its [kid] only. *)
Module Key.
Record t := mk { kid : string; kty : string }.
End Key.

(** [IssuerLogInfo]. The interface declares [keys: JWK.Key[]]; the type of
    the field is a parameter here, because [fetchDirectory] stores under
    [keys] what an unchecked cast of a parsed document gives it, while
    [audit] is given logs typed as the interface declares. *)
Module IssuerLogInfo.
Record t (K : Type) := mk {
  issuer : TrustedIssuer.t;
  keys : K;
  errors : option (list string)
}.
Arguments mk {K} _ _ _.
Arguments issuer {K} _.
Arguments keys {K} _.
Arguments errors {K} _.
End IssuerLogInfo.

Module IssuerKids.
Record t := mk { iss : string; kids : list string }.
End IssuerKids.

Module DirectoryLog.
Record t (K : Type) := mk {
  directory : string;
  time : string;
  issuerInfo : list (IssuerLogInfo.t K)
}.
Arguments mk {K} _ _ _.
Arguments directory {K} _.
Arguments time {K} _.
Arguments issuerInfo {K} _.
End DirectoryLog.

Module AuditLog.
Record t := mk {
  directory : string;
  time : string;
  issuerCount : nat;
  newIssuerCount : option nat;
  deletedIssuerCount : option nat;
  issuersWithErrors : list (IssuerLogInfo.t (list Key.t));
  duplicatedKids : list string;
  duplicatedIss : list string;
  duplicatedNames : list string;
  removedKids : option (list IssuerKids.t)
}.
End AuditLog.

(** The logs [audit] works on. *)
Abbreviation IssuerInfo := (IssuerLogInfo.t (list Key.t)).
Abbreviation Directory := (DirectoryLog.t (list Key.t)).

(** ** [audit] (index.ts, lines 158-201) *)

(** The pattern [/audit-\d/]. *)
Definition audit_re : RegExp.t := RegExp.lit "audit-" ++ [RegExp.Digit].

Definition getIssuerUrl (isTest : bool) (iss : string) : string :=
  if isTest then RegExp.replace audit_re "audit" iss else iss.

Definition getIssuers (isTest : bool) (dir : Directory) : list string :=
  (λ info, getIssuerUrl isTest (TrustedIssuer.iss (IssuerLogInfo.issuer info)))
    <$> DirectoryLog.issuerInfo dir.

Definition getIssuerKids (isTest : bool) (dir : Directory) : list IssuerKids.t :=
  (λ info,
     IssuerKids.mk
       (getIssuerUrl isTest (TrustedIssuer.iss (IssuerLogInfo.issuer info)))
       (Key.kid <$> IssuerLogInfo.keys info))
    <$> DirectoryLog.issuerInfo dir.

(** [info.errors != undefined && info.errors.length > 0] *)
Definition hasErrors (info : IssuerInfo) : bool :=
  match IssuerLogInfo.errors info with
  | None => false
  | Some errs => bool_decide (0 < length errs)
  end.

(** The body of the innermost loop (lines 187-191): [removedKids] is the
    local array the loop pushes to. *)
Definition collectRemoved (cik : IssuerKids.t) (removedKids : list string)
    (kid : string) : list string :=
  if negb (Js.includes (IssuerKids.kids cik) kid) then Js.push removedKids kid
  else removedKids.

(** The body of the loop over the current issuers (lines 185-195): [acc] is
    [auditLog.removedKids]. *)
Definition compareKids (pik : IssuerKids.t) (acc : list IssuerKids.t)
    (cik : IssuerKids.t) : list IssuerKids.t :=
  if bool_decide (IssuerKids.iss pik = IssuerKids.iss cik) then
    let removedKids := Js.forEach (collectRemoved cik) [] (IssuerKids.kids pik) in
    if bool_decide (0 < length removedKids)
    then Js.push acc (IssuerKids.mk (IssuerKids.iss pik) removedKids)
    else acc
  else acc.

(** Lines 182-197. *)
Definition removedKidsOf (previousIssKids currentIssKids : list IssuerKids.t)
  : list IssuerKids.t :=
  Js.forEach (λ acc pik, Js.forEach (compareKids pik) acc currentIssKids)
             [] previousIssKids.

(** Lines 177-178: the number of elements of [xs] that [ys] does not include. *)
Definition countMissing (xs ys : list string) : nat :=
  Js.reduce (λ acc current, acc + (if Js.includes ys current then 0 else 1)) 0 xs.

Definition audit (isTest : bool) (currentLog : Directory)
    (previousLog : option Directory) : AuditLog.t :=
  let currentIss := getIssuers isTest currentLog in
  let issuerCount := length (DirectoryLog.issuerInfo currentLog) in
  let issuersWithErrors :=
    List.filter hasErrors (DirectoryLog.issuerInfo currentLog) in
  let duplicatedKids :=
    getDuplicates
      (DirectoryLog.issuerInfo currentLog
         ≫= λ info, Key.kid <$> IssuerLogInfo.keys info) in
  let duplicatedIss := getDuplicates currentIss in
  let duplicatedNames :=
    getDuplicates
      ((λ info, TrustedIssuer.name (IssuerLogInfo.issuer info))
         <$> DirectoryLog.issuerInfo currentLog) in
  match previousLog with
  | Some previousLog =>
      let previousIss := getIssuers isTest previousLog in
      AuditLog.mk
        (DirectoryLog.directory currentLog) (DirectoryLog.time currentLog)
        issuerCount
        (Some (countMissing currentIss previousIss))
        (Some (countMissing previousIss currentIss))
        issuersWithErrors duplicatedKids duplicatedIss duplicatedNames
        (Some (removedKidsOf (getIssuerKids isTest previousLog)
                             (getIssuerKids isTest currentLog)))
  | None =>
      AuditLog.mk
        (DirectoryLog.directory currentLog) (DirectoryLog.time currentLog)
        issuerCount None None
        issuersWithErrors duplicatedKids duplicatedIss duplicatedNames None
  end.

(** A log with the given issuers and key ids, for the scenarios. *)
Definition entry (iss : string) (kids : list string) : IssuerInfo :=
  IssuerLogInfo.mk (TrustedIssuer.mk iss "") ((λ k, Key.mk k "EC") <$> kids) (Some []).

Definition logOf (entries : list IssuerInfo) : Directory :=
  DirectoryLog.mk "https://directory" "2021-01-01 00:00:00" entries.

(** ** JavaScript values and exceptions *)

(** A value as [JSON.parse] returns it, or as reading a property of such a
    value gives it. Numbers are integral here: the auditor tests a number
    for truthiness only. *)
Module Value.
Local Unset Elimination Schemes.
Inductive t :=
| Undefined
| Null
| Bool (b : bool)
| Number (n : Z)
| Str (s : string)
| Array (elems : list t)
| Object (props : list (string * t))
| Builtin (name : string).
Local Set Elimination Schemes.

(** [ToBoolean] *)
Definition truthy (v : t) : bool :=
  match v with
  | Undefined | Null => false
  | Bool b => b
  | Number n => negb (n =? 0)%Z
  | Str s => Js.truthyString s
  | Array _ | Object _ | Builtin _ => true
  end.

(** An own property of a parsed object, [undefined] when it has none;
    [props] lists the properties of the object, each name once. *)
Fixpoint own (props : list (string * t)) (key : string) : t :=
  match props with
  | [] => Undefined
  | (k, v) :: props' => if String.eqb k key then v else own props' key
  end.

Definition asString (v : t) : option string :=
  match v with
  | Str s => Some s
  | _ => None
  end.
End Value.

(** What a [throw] or a rejected promise carries: an [Error] object with
    its name and message, or a string thrown as it is. *)
Module Thrown.
Inductive t :=
| Error (name message : string)
| Text (s : string).

(** [err.toString()]: [Error.prototype.toString] for an [Error] object,
    the string itself for a string. *)
Definition toString (err : t) : string :=
  match err with
  | Error name message =>
      if String.eqb name "" then message
      else if String.eqb message "" then name
      else name +:+ ": " +:+ message
  | Text s => s
  end.

Definition TypeError (message : string) : t := Error "TypeError" message.
End Thrown.

(** The response [got] resolves to. *)
Module Response.
Record t := mk { body : string }.
End Response.

(** [keySet.keys] for a parsed document: an own property of an object, the
    method [Array.prototype.keys] of an array, nothing for a boolean, a
    number or a string; reading a property of [null] or [undefined] throws. *)
Definition keysOf (keySet : Value.t) : Thrown.t + Value.t :=
  match keySet with
  | Value.Undefined =>
      inl (Thrown.TypeError "Cannot read properties of undefined (reading 'keys')")
  | Value.Null =>
      inl (Thrown.TypeError "Cannot read properties of null (reading 'keys')")
  | Value.Object props => inr (Value.own props "keys")
  | Value.Array _ => inr (Value.Builtin "Array.prototype.keys")
  | Value.Bool _ | Value.Number _ | Value.Str _ | Value.Builtin _ =>
      inr Value.Undefined
  end.

(** The cast [as TrustedIssuers] is unchecked. [fetchDirectory] is modelled
    on the documents that have the declared type; [asTrustedIssuers] reads
    such a document. *)
Definition asTrustedIssuer (v : Value.t) : option TrustedIssuer.t :=
  match v with
  | Value.Object props =>
      iss ← Value.asString (Value.own props "iss");
      name ← Value.asString (Value.own props "name");
      Some (TrustedIssuer.mk iss name)
  | _ => None
  end.

Definition asTrustedIssuers (v : Value.t) : option TrustedIssuers.t :=
  match v with
  | Value.Object props =>
      match Value.own props "participating_issuers" with
      | Value.Array elems => TrustedIssuers.mk <$> mapM asTrustedIssuer elems
      | _ => None
      end
  | _ => None
  end.

(** ** [fetchDirectory] (index.ts, lines 95-141) *)

(** The state of the promise an [async] function returned. [IllTyped] is
    not a state of the program: it marks a directory document that does not
    have the type [TrustedIssuers], about which the embedding says nothing. *)
Inductive promise (A : Type) :=
| Pending
| Fulfilled (a : A)
| Rejected (e : Thrown.t)
| IllTyped.
Arguments Pending {A}.
Arguments Fulfilled {A} _.
Arguments Rejected {A} _.
Arguments IllTyped {A}.

(** The logs [fetchDirectory] builds: [keys] holds a JavaScript value. *)
Abbreviation FetchedInfo := (IssuerLogInfo.t Value.t).
Abbreviation FetchedLog := (DirectoryLog.t Value.t).

(** One call of the [async] callback of line 106: suspended at its
    [await got(jwkURL)], with the object it has allocated, or returned. *)
Inductive task :=
| Awaiting (issuerLogInfo : FetchedInfo) (request : nat) (jwkURL : string)
| Returned (issuerLogInfo : FetchedInfo).

Section Host.

(** The network: [got request url] is how the [request]-th call of [got]
    settles, with a response or with the error it throws (a failed
    connection, a timeout, a response code that is not a success). The
    request for the directory is number 0, the request for the issuer at
    index [i] is number [S i]: the callbacks run up to their [await] in the
    order of the array. *)
Variable got : nat → string → Thrown.t + Response.t.

(** [JSON.parse]: the parsed value, or the [SyntaxError] thrown. *)
Variable JSON_parse : string → Thrown.t + Value.t.

(** [date.format(currentTime, 'YYYY-MM-DD HH:mm:ss')] *)
Variable now : string.

(** Lines 107-114: the callback up to its [await]. *)
Definition startIssuer (request : nat) (issuer : TrustedIssuer.t) : task :=
  let jwkURL := TrustedIssuer.iss issuer +:+ "/.well-known/jwks.json" in
  let issuerLogInfo := IssuerLogInfo.mk issuer (Value.Array []) (Some []) in
  Awaiting issuerLogInfo request jwkURL.

(** Lines 114-122, the body of the [try] once [got] has settled: the value
    assigned to [keys], or what is thrown. A response is an object, so the
    test [!response] of line 115 never throws. *)
Definition tryKeys (settled : Thrown.t + Response.t) : Thrown.t + Value.t :=
  match settled with
  | inl err => inl err
  | inr response =>
      match JSON_parse (Response.body response) with
      | inl err => inl err
      | inr keySet =>
          if negb (Value.truthy keySet)
          then inl (Thrown.Text "Failed to parse JSON KeySet schema")
          else keysOf keySet
      end
  end.

(** Lines 113-126: the rest of the callback. *)
Definition resumeIssuer (issuerLogInfo : FetchedInfo)
    (settled : Thrown.t + Response.t) : FetchedInfo :=
  match tryKeys settled with
  | inr keys =>
      IssuerLogInfo.mk (IssuerLogInfo.issuer issuerLogInfo) keys
                       (IssuerLogInfo.errors issuerLogInfo)
  | inl err =>
      IssuerLogInfo.mk (IssuerLogInfo.issuer issuerLogInfo)
                       (IssuerLogInfo.keys issuerLogInfo)
                       ((λ errors, Js.push errors (Thrown.toString err))
                          <$> IssuerLogInfo.errors issuerLogInfo)
  end.

(** The request of a suspended callback settles and the callback runs to
    its end. *)
Definition settle (t : task) : task :=
  match t with
  | Awaiting issuerLogInfo request jwkURL =>
      Returned (resumeIssuer issuerLogInfo (got request jwkURL))
  | Returned _ => t
  end.

(** The event loop: [schedule] lists, in the order in which they settle,
    the indices of the issuers whose request settles. *)
Definition runSchedule (schedule : list nat) (tasks : list task) : list task :=
  foldl (λ tasks i, alter settle i tasks) tasks schedule.

Definition returned (t : task) : option FetchedInfo :=
  match t with
  | Returned issuerLogInfo => Some issuerLogInfo
  | Awaiting _ _ _ => None
  end.

(** [Promise.all]: the values of the promises in the order of the array,
    once all of them are fulfilled; [None] while one is pending. *)
Definition Promise_all (tasks : list task) : option (list FetchedInfo) :=
  mapM returned tasks.

(** Lines 106-140, for a parsed directory. No callback rejects its promise,
    so the [catch] of line 136 is not reached. *)
Definition fetchIssuers (schedule : list nat) (directoryUrl : string)
    (issuers : TrustedIssuers.t) : promise FetchedLog :=
  let issuerLogInfo :=
    imap (λ i issuer, startIssuer (S i) issuer)
         (TrustedIssuers.participating_issuers issuers) in
  match Promise_all (runSchedule schedule issuerLogInfo) with
  | Some issuerInfo => Fulfilled (DirectoryLog.mk directoryUrl now issuerInfo)
  | None => Pending
  end.

(** The calls [Promise.reject] of lines 98 and 103 make a rejected promise
    and drop it: they do not leave the function. *)
Definition fetchDirectory (schedule : list nat) (directoryUrl : string)
  : promise FetchedLog :=
  match got 0 directoryUrl with
  | inl err => Rejected err
  | inr response =>
      match JSON_parse (Response.body response) with
      | inl err => Rejected err
      | inr document =>
          match asTrustedIssuers document with
          | Some issuers => fetchIssuers schedule directoryUrl issuers
          | None => IllTyped
          end
      end
  end.

End Host.

(** ** Notions of the specification *)

(** The identifier of an entry as [audit] compares it, and its key ids. *)
Definition normalizedIss (isTest : bool) (info : IssuerInfo) : string :=
  getIssuerUrl isTest (TrustedIssuer.iss (IssuerLogInfo.issuer info)).

Definition kidList (info : IssuerInfo) : list string :=
  Key.kid <$> IssuerLogInfo.keys info.

(** The difference [previousKids − currentKids], in the order of
    [previousKids]. *)
Definition kidsDifference (previousKids currentKids : list string) : list string :=
  filter (λ kid, kid ∉ currentKids) previousKids.

(** What the comparison of one pair adds to [removedKids]: one entry when
    the identifiers are equal and the difference is not empty. *)
Definition pairEntry (pik cik : IssuerKids.t) : list IssuerKids.t :=
  if decide (IssuerKids.iss pik = IssuerKids.iss cik
             ∧ kidsDifference (IssuerKids.kids pik) (IssuerKids.kids cik) ≠ [])
  then [IssuerKids.mk (IssuerKids.iss pik)
          (kidsDifference (IssuerKids.kids pik) (IssuerKids.kids cik))]
  else [].

(** The number of elements of [xs] not present in [ys]. *)
Definition countNotIn (xs ys : list string) : nat :=
  length (filter (λ x, x ∉ ys) xs).

(** A snapshot in which two entries have the same identifier and different
    keys. *)
Definition sameIssTwice : Directory :=
  logOf [entry "A" ["k1"]; entry "A" ["k2"]].

(** The pairs of an entry of the previous and an entry of the current
    snapshot that both have the identifier [x], in the order in which the
    two loops of [audit] visit them. *)
Definition matchingPairs (x : string)
    (previousIssKids currentIssKids : list IssuerKids.t)
  : list (IssuerKids.t * IssuerKids.t) :=
  filter (λ pik, IssuerKids.iss pik = x) previousIssKids ≫= λ pik,
    (λ cik, (pik, cik)) <$> filter (λ cik, IssuerKids.iss cik = x) currentIssKids.

Definition pairDifference (pc : IssuerKids.t * IssuerKids.t) : list string :=
  kidsDifference (IssuerKids.kids pc.1) (IssuerKids.kids pc.2).

(** The address [fetchDirectory] requests the key set of an issuer from. *)
Definition jwkURLOf (issuer : TrustedIssuer.t) : string :=
  TrustedIssuer.iss issuer +:+ "/.well-known/jwks.json".

(** The entry of the issuer at index [i] once its request has settled. *)
Definition fetchedEntry (got : nat → string → Thrown.t + Response.t)
    (JSON_parse : string → Thrown.t + Value.t)
    (i : nat) (issuer : TrustedIssuer.t) : FetchedInfo :=
  resumeIssuer JSON_parse
    (IssuerLogInfo.mk issuer (Value.Array []) (Some []))
    (got (S i) (jwkURLOf issuer)).

(** Every request of the [n] issuers settles in the course of [schedule]. *)
Definition allSettle (schedule : list nat) (n : nat) : Prop :=
  ∀ i, i < n → i ∈ schedule.

(** ** A directory of three issuers, for the examples

    The directory lists the issuers [https://a], [https://b] and
    [https://c]. The key set of the first is the document [{}], the request
    for the second is refused, the third has one key. *)
Module Demo.

Definition quoted (s : string) : string :=
  String (ascii_of_nat 34) s +:+ String (ascii_of_nat 34) "".

Definition issuerText (iss name : string) : string :=
  "{" +:+ quoted "iss" +:+ ":" +:+ quoted iss +:+ ","
      +:+ quoted "name" +:+ ":" +:+ quoted name +:+ "}".

Definition directoryText : string :=
  "{" +:+ quoted "participating_issuers" +:+ ":["
      +:+ issuerText "https://a" "A" +:+ ","
      +:+ issuerText "https://b" "B" +:+ ","
      +:+ issuerText "https://c" "C" +:+ "]}".

Definition keySetText : string :=
  "{" +:+ quoted "keys" +:+ ":[{" +:+ quoted "kid" +:+ ":" +:+ quoted "k1" +:+ "}]}".

Definition issuerValue (iss name : string) : Value.t :=
  Value.Object [("iss", Value.Str iss); ("name", Value.Str name)].

Definition directoryValue : Value.t :=
  Value.Object
    [("participating_issuers",
      Value.Array [issuerValue "https://a" "A"; issuerValue "https://b" "B";
                   issuerValue "https://c" "C"])].

Definition keySetValue : Value.t :=
  Value.Object [("keys", Value.Array [Value.Object [("kid", Value.Str "k1")]])].

(** [JSON.parse] on the texts of the example; any other text that occurs
    in it is not JSON. *)
Definition JSON_parse (text : string) : Thrown.t + Value.t :=
  if String.eqb text directoryText then inr directoryValue
  else if String.eqb text "{}" then inr (Value.Object [])
  else if String.eqb text keySetText then inr keySetValue
  else inl (Thrown.Error "SyntaxError" "Unexpected token < in JSON at position 0").

Definition got (request : nat) (url : string) : Thrown.t + Response.t :=
  match request with
  | 0 => inr (Response.mk directoryText)
  | 1 => inr (Response.mk "{}")
  | 2 => inl (Thrown.Error "RequestError" "connect ECONNREFUSED")
  | _ => inr (Response.mk keySetText)
  end.

(** The same network, had the request for the second issuer succeeded. *)
Definition gotAll (request : nat) (url : string) : Thrown.t + Response.t :=
  match request with
  | 2 => inr (Response.mk keySetText)
  | _ => got request url
  end.

Definition issuers : TrustedIssuers.t :=
  TrustedIssuers.mk
    [TrustedIssuer.mk "https://a" "A"; TrustedIssuer.mk "https://b" "B";
     TrustedIssuer.mk "https://c" "C"].

End Demo.

(** ** Program options (index.ts, lines 59-92) *)

Definition VCI_ISSUERS_DIR_URL : string :=
  "https://raw.githubusercontent.com/the-commons-project/vci-directory/main/vci-issuers.json".

(** [Options], as [program.opts()] returns it: an option that was not given
    is [undefined], here [None]; [test] is [false] when [-t] was not given. *)
Module Options.
Record t := mk {
  directorylog : option string;
  previous : option string;
  auditlog : option string;
  directory : option string;
  test : bool
}.
End Options.

(** [!option] for an option that is a string or [undefined]. *)
Definition notGiven (option : option string) : bool :=
  match option with
  | None => true
  | Some s => negb (Js.truthyString s)
  end.

Section Startup.

(** [path.join] of the platform. *)
Variable path_join : string → string → string.

(** [date.format(currentTime, 'YYYY-MM-DD-HHmmss')] *)
Variable fileStamp : string.

(** Lines 80-92. *)
Definition processOptions (options : Options.t) : Options.t :=
  let directory :=
    if notGiven (Options.directory options) then Some VCI_ISSUERS_DIR_URL
    else Options.directory options in
  let directorylog :=
    if notGiven (Options.directorylog options)
    then Some (path_join "logs" ("directory_log_" +:+ fileStamp +:+ ".json"))
    else Options.directorylog options in
  let auditlog :=
    if notGiven (Options.auditlog options)
    then Some (path_join "logs" ("audit_log_" +:+ fileStamp +:+ ".json"))
    else Options.auditlog options in
  Options.mk directorylog (Options.previous options) auditlog directory
             (Options.test options).

End Startup.

(** ** Loading the previous log (index.ts, lines 212-223) *)


Section LoadPrevious.

(** [fs.readFileSync(path).toString('utf-8')]: the text of the file, or the
    error thrown. *)
Variable readFileSync : string → Thrown.t + string.

Variable JSON_parse : string → Thrown.t + Value.t.



End LoadPrevious.

(** ** Further notions for the properties *)



(** [path.join] on a platform whose separator is [/], for two segments
    that need no normalization. *)
Definition posixJoin (a b : string) : string := a +:+ "/" +:+ b.

(** The directory of the examples on a network where every key set is the
    document [null]. *)
Module DemoNull.

Definition JSON_parse (text : string) : Thrown.t + Value.t :=
  if String.eqb text "null" then inr Value.Null else Demo.JSON_parse text.

Definition got (request : nat) (url : string) : Thrown.t + Response.t :=
  match request with
  | 0 => inr (Response.mk Demo.directoryText)
  | _ => inr (Response.mk "null")
  end.

End DemoNull.

(** * Properties *)

Example getDuplicates_nil : getDuplicates [] = [].
Proof. reflexivity. Qed.

Example getDuplicates_single : getDuplicates ["a"] = [].
Proof. reflexivity. Qed.

Example getDuplicates_aab : getDuplicates ["a"; "a"; "b"] = ["a"].
Proof. reflexivity. Qed.

Example getDuplicates_aaa : getDuplicates ["a"; "a"; "a"] = ["a"].
Proof. reflexivity. Qed.

Example getDuplicates_case : getDuplicates ["a"; "A"; "b"; "B"; "b"] = ["b"].
Proof. reflexivity. Qed.

Example getIssuerUrl_test : getIssuerUrl true "https://x/audit-1" = "https://x/audit".
Proof. reflexivity. Qed.

Example getIssuerUrl_two : getIssuerUrl true "audit-1/audit-2" = "audit/audit-2".
Proof. reflexivity. Qed.

Example removedKids_scenario :
  AuditLog.removedKids
    (audit false (logOf [entry "A" ["k1"]]) (Some (logOf [entry "A" ["k1"; "k2"]])))
  = Some [IssuerKids.mk "A" ["k2"]].
Proof. reflexivity. Qed.


(** ** Sets in insertion order *)

Section StringSet_facts.
Import Js.StringSet.

Lemma has_true s x : has s x = true ↔ x ∈ s.
Proof. unfold has. apply bool_decide_eq_true. Qed.

Lemma has_false s x : has s x = false ↔ x ∉ s.
Proof. unfold has. apply bool_decide_eq_false. Qed.

Lemma elem_of_add s x y : y ∈ add s x ↔ y ∈ s ∨ y = x.
Proof.
  unfold add. destruct (has s x) eqn:E.
  - apply has_true in E. split; [auto | intros [?| ->]; auto].
  - rewrite elem_of_app, list_elem_of_singleton. tauto.
Qed.

Lemma NoDup_add s x : NoDup s → NoDup (add s x).
Proof.
  intros Hs. unfold add. destruct (has s x) eqn:E; [done|].
  apply has_false in E. apply NoDup_app. split; [done|]. split.
  - intros y Hy ->%list_elem_of_singleton. contradiction.
  - apply NoDup_singleton.
Qed.

Lemma elem_of_foldl_add l s y : y ∈ foldl add s l ↔ y ∈ s ∨ y ∈ l.
Proof.
  revert s. induction l as [|x l IH]; intros s; simpl.
  - rewrite elem_of_nil. tauto.
  - rewrite IH, elem_of_add, elem_of_cons. tauto.
Qed.

Lemma elem_of_new l y : y ∈ new l ↔ y ∈ l.
Proof. unfold new. rewrite elem_of_foldl_add, elem_of_nil. tauto. Qed.

Lemma NoDup_new l : NoDup (new l).
Proof.
  unfold new. generalize (NoDup_nil_2 (A:=string)). generalize (@nil string).
  induction l as [|x l IH]; intros s Hs; simpl; [done|].
  apply IH, NoDup_add, Hs.
Qed.

Lemma elem_of_delete s x y : y ∈ delete s x ↔ y ∈ s ∧ y ≠ x.
Proof. unfold delete. rewrite list_elem_of_filter. tauto. Qed.

End StringSet_facts.

(** ** [getDuplicates] *)

Lemma truthyString_true s : Js.truthyString s = true ↔ s ≠ "".
Proof. destruct s; simpl; split; congruence. Qed.

Lemma count_cons_eq l v : count (v :: l) v = S (count l v).
Proof. unfold count. by rewrite filter_cons_True. Qed.

Lemma count_cons_ne l v x : x ≠ v → count (x :: l) v = count l v.
Proof. intros. unfold count. by rewrite filter_cons_False. Qed.

Lemma count_pos l v : 1 ≤ count l v ↔ v ∈ l.
Proof.
  induction l as [|x l IH].
  - rewrite elem_of_nil. unfold count. simpl. lia.
  - rewrite elem_of_cons. destruct (decide (x = v)) as [->|Hne].
    + rewrite count_cons_eq. split; [auto | lia].
    + rewrite count_cons_ne by done. rewrite IH. split; [auto|].
      intros [->|]; [done | auto].
Qed.

(** What the stateful filter keeps, for any state of the captured set. *)
Lemma elem_of_filter_callback l set v :
  v ∈ Js.filterSt Js.truthyReturn getDuplicates_callback set l ↔
  v ≠ "" ∧ (if Js.StringSet.has set v then 2 ≤ count l v else 1 ≤ count l v).
Proof.
  revert set. induction l as [|item rest IH]; intros set.
  - simpl. rewrite elem_of_nil. unfold count; simpl.
    destruct (Js.StringSet.has set v); lia.
  - simpl. unfold getDuplicates_callback.
    destruct (Js.StringSet.has set item) eqn:Hitem; simpl.
    + rewrite IH. destruct (decide (item = v)) as [->|Hne].
      * rewrite Hitem, count_cons_eq.
        assert (Js.StringSet.has (Js.StringSet.delete set v) v = false) as ->.
        { apply has_false. rewrite elem_of_delete. tauto. }
        split; (intros [? ?]; split; [done | lia]).
      * rewrite count_cons_ne by done.
        assert (Js.StringSet.has (Js.StringSet.delete set item) v
                = Js.StringSet.has set v) as ->; [|done].
        destruct (Js.StringSet.has set v) eqn:Hv.
        -- apply has_true. apply has_true in Hv. rewrite elem_of_delete.
           split; [done | congruence].
        -- apply has_false. apply has_false in Hv. rewrite elem_of_delete. tauto.
    + destruct (decide (item = v)) as [->|Hne].
      * rewrite Hitem, count_cons_eq.
        destruct (Js.truthyString v) eqn:Hv.
        -- apply truthyString_true in Hv. rewrite elem_of_cons.
           split; [intros _; split; [done | lia] | auto].
        -- rewrite IH. destruct v; [|discriminate]. tauto.
      * rewrite count_cons_ne by done.
        destruct (Js.truthyString item); [|by rewrite IH].
        rewrite elem_of_cons, IH. split; [|auto]. intros [->|]; [done | auto].
Qed.

(** [getDuplicates] reports the non-empty strings that occur at least twice. *)
Lemma elem_of_getDuplicates items v :
  v ∈ getDuplicates items ↔ v ≠ "" ∧ 2 ≤ count items v.
Proof.
  unfold getDuplicates, Js.StringSet.toArray.
  rewrite elem_of_new, elem_of_filter_callback.
  destruct (Js.StringSet.has (Js.StringSet.new items) v) eqn:E; [done|].
  apply has_false in E. rewrite elem_of_new, <- count_pos in E. lia.
Qed.

(** Each of them is reported once. *)
Lemma NoDup_getDuplicates items : NoDup (getDuplicates items).
Proof. apply NoDup_new. Qed.

(** [C1]: the empty string occurs twice in [["", ""]], and [getDuplicates]
    does not report it: the callback returns the item itself, and [filter]
    drops an element whose callback result is falsy. *)
Theorem getDuplicates_misses_empty_string :
  count [""; ""] "" = 2 ∧ getDuplicates [""; ""] = [] ∧
  getDuplicates ["a"; ""; "a"; ""] = ["a"].
Proof. repeat split. Qed.

(** ** [audit]: the loops as list comprehensions *)

Lemma elem_of_kidsDifference k previousKids currentKids :
  k ∈ kidsDifference previousKids currentKids ↔ k ∈ previousKids ∧ k ∉ currentKids.
Proof. unfold kidsDifference. rewrite list_elem_of_filter. tauto. Qed.

Lemma kidsDifference_nil previousKids currentKids :
  kidsDifference previousKids currentKids = [] ↔ previousKids ⊆ currentKids.
Proof.
  split.
  - intros H k Hk. destruct (decide (k ∈ currentKids)) as [|Hn]; [done|].
    assert (k ∈ kidsDifference previousKids currentKids) as Hin
      by (by apply elem_of_kidsDifference).
    rewrite H in Hin. by apply elem_of_nil in Hin.
  - intros H. destruct (kidsDifference previousKids currentKids) as [|k l] eqn:E; [done|].
    assert (k ∈ kidsDifference previousKids currentKids) as Hin
      by (rewrite E; left).
    apply elem_of_kidsDifference in Hin as [Hin Hn]. by apply H in Hin.
Qed.

Lemma forEach_collectRemoved cik acc kids :
  Js.forEach (collectRemoved cik) acc kids
  = acc ++ kidsDifference kids (IssuerKids.kids cik).
Proof.
  unfold Js.forEach, kidsDifference. revert acc.
  induction kids as [|kid kids IH]; intros acc; simpl.
  - by rewrite app_nil_r.
  - rewrite IH. unfold collectRemoved, Js.includes, Js.push.
    destruct (decide (kid ∈ IssuerKids.kids cik)) as [Hin|Hn].
    + rewrite bool_decide_eq_true_2 by done. simpl.
      by rewrite filter_cons_False by tauto.
    + rewrite bool_decide_eq_false_2 by done. simpl.
      rewrite filter_cons_True by done. by rewrite <- app_assoc.
Qed.

Lemma compareKids_pairEntry pik acc cik :
  compareKids pik acc cik = acc ++ pairEntry pik cik.
Proof.
  unfold compareKids, pairEntry. rewrite forEach_collectRemoved. simpl.
  destruct (decide (IssuerKids.iss pik = IssuerKids.iss cik)) as [Heq|Hne].
  - rewrite bool_decide_eq_true_2 by done.
    destruct (kidsDifference (IssuerKids.kids pik) (IssuerKids.kids cik)) as [|k l] eqn:E.
    + simpl. rewrite decide_False by tauto. by rewrite app_nil_r.
    + rewrite bool_decide_eq_true_2 by (simpl; lia).
      by rewrite decide_True by done.
  - rewrite bool_decide_eq_false_2 by done.
    rewrite decide_False by tauto. by rewrite app_nil_r.
Qed.

Lemma forEach_compareKids pik acc currentIssKids :
  Js.forEach (compareKids pik) acc currentIssKids
  = acc ++ (currentIssKids ≫= pairEntry pik).
Proof.
  unfold Js.forEach. revert acc.
  induction currentIssKids as [|cik l IH]; intros acc; simpl.
  - by rewrite app_nil_r.
  - by rewrite IH, compareKids_pairEntry, <- app_assoc.
Qed.

Lemma removedKidsOf_bind previousIssKids currentIssKids :
  removedKidsOf previousIssKids currentIssKids
  = previousIssKids ≫= λ pik, currentIssKids ≫= pairEntry pik.
Proof.
  unfold removedKidsOf, Js.forEach.
  enough (∀ acc, foldl (λ acc pik, foldl (compareKids pik) acc currentIssKids)
                   acc previousIssKids
                 = acc ++ (previousIssKids ≫= λ pik, currentIssKids ≫= pairEntry pik))
    as H by apply (H []).
  induction previousIssKids as [|pik l IH]; intros acc; simpl.
  - by rewrite app_nil_r.
  - rewrite IH. fold (Js.forEach (compareKids pik) acc currentIssKids).
    by rewrite forEach_compareKids, <- app_assoc.
Qed.

Lemma countMissing_countNotIn xs ys : countMissing xs ys = countNotIn xs ys.
Proof.
  unfold countMissing, countNotIn, Js.reduce.
  enough (∀ acc, foldl (λ acc current, acc + (if Js.includes ys current then 0 else 1))
                   acc xs = acc + length (filter (λ x, x ∉ ys) xs))
    as H by apply (H 0).
  induction xs as [|x xs IH]; intros acc; simpl; [lia|].
  rewrite IH. unfold Js.includes.
  destruct (decide (x ∈ ys)) as [Hin|Hn].
  - rewrite bool_decide_eq_true_2 by done.
    rewrite filter_cons_False by tauto. lia.
  - rewrite bool_decide_eq_false_2 by done.
    rewrite filter_cons_True by done. simpl. lia.
Qed.

Lemma getIssuerKids_map isTest (dir : Directory) :
  getIssuerKids isTest dir
  = (λ info, IssuerKids.mk (normalizedIss isTest info) (kidList info))
      <$> DirectoryLog.issuerInfo dir.
Proof. reflexivity. Qed.

Lemma getIssuers_map isTest (dir : Directory) :
  getIssuers isTest dir = normalizedIss isTest <$> DirectoryLog.issuerInfo dir.
Proof. reflexivity. Qed.

(** The entries of [removedKids], pair by pair. *)
Lemma elem_of_removedKidsOf isTest (current previous : Directory) e :
  e ∈ removedKidsOf (getIssuerKids isTest previous) (getIssuerKids isTest current) ↔
  ∃ p c, p ∈ DirectoryLog.issuerInfo previous ∧ c ∈ DirectoryLog.issuerInfo current ∧
    normalizedIss isTest p = normalizedIss isTest c ∧
    kidsDifference (kidList p) (kidList c) ≠ [] ∧
    e = IssuerKids.mk (normalizedIss isTest p) (kidsDifference (kidList p) (kidList c)).
Proof.
  rewrite removedKidsOf_bind, !getIssuerKids_map. rewrite list_elem_of_bind. split.
  - intros (pik & Hin & Hp). apply list_elem_of_bind in Hin as (cik & He & Hc).
    apply list_elem_of_fmap in Hp as (p & -> & Hp).
    apply list_elem_of_fmap in Hc as (c & -> & Hc).
    unfold pairEntry in He. simpl in He. case_decide as Hd.
    + apply list_elem_of_singleton in He. destruct Hd. by exists p, c.
    + by apply elem_of_nil in He.
  - intros (p & c & Hp & Hc & Hiss & Hne & ->).
    exists (IssuerKids.mk (normalizedIss isTest p) (kidList p)). split.
    + apply list_elem_of_bind.
      exists (IssuerKids.mk (normalizedIss isTest c) (kidList c)). split.
      * unfold pairEntry. simpl. rewrite decide_True by done. left.
      * apply list_elem_of_fmap. by exists c.
    + apply list_elem_of_fmap. by exists p.
Qed.

(** ** [audit]: removed key ids *)

(** [C3]: with a previous snapshot, [removedKids] holds exactly the entries
    [{ iss, kids: previous.kids − current.kids }] of the pairs of a previous
    and a current entry with the same normalized identifier and a non-empty
    difference; an identifier of [removedKids] is present in both snapshots;
    an identifier whose previous kids are all among its current kids does
    not appear; the two scenarios of the specification come out as stated. *)
Theorem removedKids_of_matching_pairs isTest (current previous : Directory) :
  ∃ removed,
    AuditLog.removedKids (audit isTest current (Some previous)) = Some removed ∧
    (∀ e, e ∈ removed ↔
       ∃ p c, p ∈ DirectoryLog.issuerInfo previous ∧
              c ∈ DirectoryLog.issuerInfo current ∧
              normalizedIss isTest p = normalizedIss isTest c ∧
              kidsDifference (kidList p) (kidList c) ≠ [] ∧
              e = IssuerKids.mk (normalizedIss isTest p)
                                (kidsDifference (kidList p) (kidList c))) ∧
    (∀ e, e ∈ removed →
       IssuerKids.iss e ∈ getIssuers isTest previous ∧
       IssuerKids.iss e ∈ getIssuers isTest current) ∧
    (∀ x, (∀ p c, p ∈ DirectoryLog.issuerInfo previous →
                  c ∈ DirectoryLog.issuerInfo current →
                  normalizedIss isTest p = x → normalizedIss isTest c = x →
                  kidList p ⊆ kidList c) →
          ∀ e, e ∈ removed → IssuerKids.iss e ≠ x) ∧
    (∀ k previousKids currentKids,
       k ∈ kidsDifference previousKids currentKids ↔
       k ∈ previousKids ∧ k ∉ currentKids) ∧
    AuditLog.removedKids
      (audit isTest (logOf [entry "A" ["k1"]]) (Some (logOf [entry "A" ["k1"; "k2"]])))
    = Some [IssuerKids.mk "A" ["k2"]] ∧
    AuditLog.removedKids
      (audit isTest (logOf [entry "A" ["k1"; "k2"]]) (Some (logOf [entry "A" ["k1"]])))
    = Some [].
Proof.
  eexists. split; [reflexivity|].
  split; [apply elem_of_removedKidsOf|].
  split; [|split; [|split; [|by destruct isTest]]].
  - intros e (p & c & Hp & Hc & Hiss & _ & ->)%elem_of_removedKidsOf.
    rewrite !getIssuers_map. simpl. split.
    + apply list_elem_of_fmap. by exists p.
    + rewrite Hiss. apply list_elem_of_fmap. by exists c.
  - intros x Hsub e (p & c & Hp & Hc & Hiss & Hne & ->)%elem_of_removedKidsOf.
    simpl. intros Hx. apply Hne, kidsDifference_nil.
    apply (Hsub p c); congruence.
  - apply elem_of_kidsDifference.
Qed.

Lemma removedKids_of_matching_pairs_witness :
  ∃ removed,
    AuditLog.removedKids
      (audit false (logOf [entry "A" ["k1"]; entry "B" ["k3"]])
             (Some (logOf [entry "A" ["k1"; "k2"]; entry "C" ["k4"]])))
    = Some removed ∧
    IssuerKids.mk "A" ["k2"] ∈ removed ∧
    (∀ e, e ∈ removed → IssuerKids.iss e ≠ "C").
Proof.
  destruct (removedKids_of_matching_pairs false
              (logOf [entry "A" ["k1"]; entry "B" ["k3"]])
              (logOf [entry "A" ["k1"; "k2"]; entry "C" ["k4"]]))
    as (removed & Hsome & Hiff & Hboth & _).
  exists removed. split; [exact Hsome|]. split.
  - apply Hiff. exists (entry "A" ["k1"; "k2"]), (entry "A" ["k1"]).
    repeat split; [left | left | vm_compute; discriminate].
  - intros e He Hc. apply Hboth in He as [_ He]. rewrite Hc in He.
    vm_compute in He.
    repeat (apply elem_of_cons in He as [He|He]; [discriminate|]).
    by apply elem_of_nil in He.
Defined.

(** ** [audit]: issuer counts *)

Lemma filter_not_elem_of_subseteq (zs xs : list string) :
  zs ⊆ xs → filter (λ x, x ∉ xs) zs = [].
Proof.
  induction zs as [|z zs IH]; [done|]. intros Hs.
  rewrite filter_cons_False by (intros Hn; apply Hn, Hs; left).
  apply IH. intros y Hy. apply Hs. by right.
Qed.

Lemma countNotIn_self xs : countNotIn xs xs = 0.
Proof. unfold countNotIn. by rewrite filter_not_elem_of_subseteq. Qed.

(** [C7]: with a previous snapshot, [newIssuerCount] is the number of
    normalized identifiers of the current snapshot not present in the
    previous one, [deletedIssuerCount] the number of those of the previous
    snapshot not present in the current one; current issuers [A, B] and
    previous issuers [A, C] give 1 and 1. *)
Theorem audit_issuer_counts isTest (current previous : Directory) :
  AuditLog.newIssuerCount (audit isTest current (Some previous))
  = Some (countNotIn (getIssuers isTest current) (getIssuers isTest previous)) ∧
  AuditLog.deletedIssuerCount (audit isTest current (Some previous))
  = Some (countNotIn (getIssuers isTest previous) (getIssuers isTest current)) ∧
  AuditLog.newIssuerCount
    (audit isTest (logOf [entry "A" []; entry "B" []])
           (Some (logOf [entry "A" []; entry "C" []]))) = Some 1 ∧
  AuditLog.deletedIssuerCount
    (audit isTest (logOf [entry "A" []; entry "B" []])
           (Some (logOf [entry "A" []; entry "C" []]))) = Some 1.
Proof.
  repeat split; try (by destruct isTest); simpl; by rewrite countMissing_countNotIn.
Qed.

(** ** [audit]: a snapshot compared with itself *)

Lemma removedKidsOf_nil_iff isTest (current previous : Directory) :
  removedKidsOf (getIssuerKids isTest previous) (getIssuerKids isTest current) = [] ↔
  ∀ p c, p ∈ DirectoryLog.issuerInfo previous → c ∈ DirectoryLog.issuerInfo current →
         normalizedIss isTest p = normalizedIss isTest c → kidList p ⊆ kidList c.
Proof.
  split.
  - intros Hnil p c Hp Hc Hiss. apply kidsDifference_nil.
    destruct (decide (kidsDifference (kidList p) (kidList c) = [])) as [|Hne]; [done|].
    assert (IssuerKids.mk (normalizedIss isTest p)
              (kidsDifference (kidList p) (kidList c))
            ∈ removedKidsOf (getIssuerKids isTest previous)
                            (getIssuerKids isTest current)) as Hin.
    { apply elem_of_removedKidsOf. by exists p, c. }
    rewrite Hnil in Hin. by apply elem_of_nil in Hin.
  - intros Hsub.
    destruct (removedKidsOf _ _) as [|e l] eqn:E; [done|].
    assert (e ∈ removedKidsOf (getIssuerKids isTest previous)
                              (getIssuerKids isTest current)) as Hin
      by (rewrite E; left).
    apply elem_of_removedKidsOf in Hin as (p & c & Hp & Hc & Hiss & Hne & _).
    destruct Hne. apply kidsDifference_nil. by apply Hsub.
Qed.

Lemma NoDup_fmap_elem_eq {A B} (f : A → B) (l : list A) x y :
  NoDup (f <$> l) → x ∈ l → y ∈ l → f x = f y → x = y.
Proof.
  induction l as [|z l IH]; intros Hnd Hx Hy Hf.
  - by apply elem_of_nil in Hx.
  - rewrite fmap_cons in Hnd. apply NoDup_cons in Hnd as [Hz Hnd].
    apply elem_of_cons in Hx as [->|Hx]; apply elem_of_cons in Hy as [->|Hy].
    + done.
    + destruct Hz. rewrite Hf. by apply list_elem_of_fmap_2.
    + destruct Hz. rewrite <- Hf. by apply list_elem_of_fmap_2.
    + by apply IH.
Qed.

(** [C6], as amended: for a snapshot compared with itself the two counts
    are 0, and [removedKids] is empty exactly when, for any two entries of
    the snapshot with the same normalized identifier, the key ids of the one
    are among those of the other; that is so when the normalized
    identifiers of the snapshot are pairwise distinct. *)
Theorem audit_identical_snapshots isTest (s : Directory) :
  AuditLog.newIssuerCount (audit isTest s (Some s)) = Some 0 ∧
  AuditLog.deletedIssuerCount (audit isTest s (Some s)) = Some 0 ∧
  (AuditLog.removedKids (audit isTest s (Some s)) = Some [] ↔
   ∀ p c, p ∈ DirectoryLog.issuerInfo s → c ∈ DirectoryLog.issuerInfo s →
          normalizedIss isTest p = normalizedIss isTest c → kidList p ⊆ kidList c) ∧
  (NoDup (getIssuers isTest s) →
   AuditLog.removedKids (audit isTest s (Some s)) = Some []).
Proof.
  assert (AuditLog.removedKids (audit isTest s (Some s)) = Some [] ↔
          ∀ p c, p ∈ DirectoryLog.issuerInfo s → c ∈ DirectoryLog.issuerInfo s →
                 normalizedIss isTest p = normalizedIss isTest c →
                 kidList p ⊆ kidList c) as Hiff.
  { rewrite <- removedKidsOf_nil_iff. simpl. split; [by intros [= ->] | by intros ->]. }
  split; [|split; [|split; [exact Hiff|]]].
  - simpl. by rewrite countMissing_countNotIn, countNotIn_self.
  - simpl. by rewrite countMissing_countNotIn, countNotIn_self.
  - intros Hnd. apply Hiff. intros p c Hp Hc Hiss.
    rewrite getIssuers_map in Hnd.
    by rewrite (NoDup_fmap_elem_eq _ _ p c Hnd Hp Hc Hiss).
Qed.

Lemma audit_identical_snapshots_witness :
  NoDup (getIssuers true (logOf [entry "x/audit-1" ["k1"]; entry "y/audit-1" ["k2"]])) ∧
  AuditLog.removedKids
    (audit true (logOf [entry "x/audit-1" ["k1"]; entry "y/audit-1" ["k2"]])
           (Some (logOf [entry "x/audit-1" ["k1"]; entry "y/audit-1" ["k2"]])))
  = Some [].
Proof.
  assert (NoDup (getIssuers true
                   (logOf [entry "x/audit-1" ["k1"]; entry "y/audit-1" ["k2"]]))) as Hnd.
  { apply (bool_decide_unpack _). vm_compute. exact I. }
  split; [exact Hnd|].
  exact (proj2 (proj2 (proj2 (audit_identical_snapshots true _))) Hnd).
Defined.

(** [C6], as stated, fails: a snapshot with two entries of the same
    identifier and different keys, compared with itself, has two entries in
    [removedKids]. *)
Lemma same_snapshot_removedKids_not_empty :
  AuditLog.removedKids (audit false sameIssTwice (Some sameIssTwice))
  = Some [IssuerKids.mk "A" ["k1"]; IssuerKids.mk "A" ["k2"]] ∧
  ¬ (AuditLog.newIssuerCount (audit false sameIssTwice (Some sameIssTwice)) = Some 0 ∧
     AuditLog.deletedIssuerCount (audit false sameIssTwice (Some sameIssTwice)) = Some 0 ∧
     AuditLog.removedKids (audit false sameIssTwice (Some sameIssTwice)) = Some []).
Proof. split; [reflexivity|]. intros (_ & _ & H). vm_compute in H. discriminate. Qed.

(** ** [audit]: an identifier that occurs several times *)

Lemma length_filter_iss_getIssuerKids isTest (dir : Directory) x :
  length (filter (λ ik, IssuerKids.iss ik = x) (getIssuerKids isTest dir))
  = count (getIssuers isTest dir) x.
Proof.
  rewrite getIssuerKids_map, getIssuers_map. unfold count.
  induction (DirectoryLog.issuerInfo dir) as [|info l IH]; [done|].
  rewrite !fmap_cons.
  destruct (decide (normalizedIss isTest info = x)) as [Heq|Hne].
  - rewrite !filter_cons_True by done. simpl. by rewrite IH.
  - by rewrite !filter_cons_False by done.
Qed.

Lemma length_matchingPairs x P C :
  length (matchingPairs x P C)
  = length (filter (λ pik, IssuerKids.iss pik = x) P)
    * length (filter (λ cik, IssuerKids.iss cik = x) C).
Proof.
  unfold matchingPairs.
  induction (filter (λ pik, IssuerKids.iss pik = x) P) as [|p l IH]; [done|].
  rewrite bind_cons, length_app, length_fmap, IH. simpl. lia.
Qed.

(** The entries that a previous entry with another identifier adds do not
    have the identifier [x]. *)
Lemma filter_iss_pairEntry_other x pik C :
  IssuerKids.iss pik ≠ x →
  filter (λ e, IssuerKids.iss e = x) (C ≫= pairEntry pik) = [].
Proof.
  intros Hne. induction C as [|cik C IH]; [done|].
  rewrite bind_cons, filter_app, IH, app_nil_r. unfold pairEntry.
  case_decide; [|done]. by rewrite filter_cons_False.
Qed.

(** Those that a previous entry with the identifier [x] adds: one for each
    current entry with that identifier and a non-empty difference. *)
Lemma filter_iss_pairEntry_same x pik C :
  IssuerKids.iss pik = x →
  filter (λ e, IssuerKids.iss e = x) (C ≫= pairEntry pik)
  = (λ pc, IssuerKids.mk x (pairDifference pc))
      <$> filter (λ pc, pairDifference pc ≠ [])
            ((λ cik, (pik, cik)) <$> filter (λ cik, IssuerKids.iss cik = x) C).
Proof.
  intros Heq. induction C as [|cik C IH]; [done|].
  rewrite bind_cons, filter_app, IH. unfold pairEntry.
  destruct (decide (IssuerKids.iss cik = x)) as [Hc|Hc].
  - rewrite (filter_cons_True (λ cik, IssuerKids.iss cik = x)) by done.
    rewrite fmap_cons.
    destruct (decide (kidsDifference (IssuerKids.kids pik) (IssuerKids.kids cik) = []))
      as [Hd|Hd].
    + rewrite decide_False by tauto.
      by rewrite (filter_cons_False (λ pc, pairDifference pc ≠ [])) by (simpl; tauto).
    + rewrite decide_True by (split; congruence).
      rewrite (filter_cons_True (λ pc, pairDifference pc ≠ [])) by done.
      rewrite filter_cons_True by done. rewrite filter_nil, fmap_cons. simpl.
      by rewrite Heq.
  - rewrite (filter_cons_False (λ cik, IssuerKids.iss cik = x)) by done.
    rewrite decide_False; [done|]. intros [? _]. congruence.
Qed.

Lemma filter_iss_removedKidsOf x P C :
  filter (λ e, IssuerKids.iss e = x) (removedKidsOf P C)
  = (λ pc, IssuerKids.mk x (pairDifference pc))
      <$> filter (λ pc, pairDifference pc ≠ []) (matchingPairs x P C).
Proof.
  rewrite removedKidsOf_bind. unfold matchingPairs.
  induction P as [|pik P IH]; [done|].
  rewrite bind_cons, filter_app, IH.
  destruct (decide (IssuerKids.iss pik = x)) as [Hp|Hp].
  - rewrite (filter_cons_True (λ pik, IssuerKids.iss pik = x)) by done.
    rewrite bind_cons, filter_app, fmap_app.
    by rewrite filter_iss_pairEntry_same.
  - rewrite (filter_cons_False (λ pik, IssuerKids.iss pik = x)) by done.
    by rewrite filter_iss_pairEntry_other.
Qed.

(** [C9]: an identifier that occurs [m] times in the previous and [n] times
    in the current snapshot has [m * n] matching pairs, and the entries of
    [removedKids] with that identifier are, in the order of the loops, one
    entry for each matching pair whose difference is not empty; a previous
    entry matched by two current entries is reported twice. *)
Theorem removedKids_once_per_pair isTest (current previous : Directory) x :
  length (matchingPairs x (getIssuerKids isTest previous) (getIssuerKids isTest current))
  = count (getIssuers isTest previous) x * count (getIssuers isTest current) x ∧
  (∃ removed,
     AuditLog.removedKids (audit isTest current (Some previous)) = Some removed ∧
     filter (λ e, IssuerKids.iss e = x) removed
     = (λ pc, IssuerKids.mk x (pairDifference pc))
         <$> filter (λ pc, pairDifference pc ≠ [])
               (matchingPairs x (getIssuerKids isTest previous)
                                (getIssuerKids isTest current))) ∧
  AuditLog.removedKids
    (audit isTest (logOf [entry "A" ["k1"]; entry "A" []])
           (Some (logOf [entry "A" ["k1"; "k2"]])))
  = Some [IssuerKids.mk "A" ["k2"]; IssuerKids.mk "A" ["k1"; "k2"]].
Proof.
  split; [|split].
  - by rewrite length_matchingPairs, !length_filter_iss_getIssuerKids.
  - eexists. split; [reflexivity|]. apply filter_iss_removedKidsOf.
  - by destruct isTest.
Qed.

(** ** The pattern [/audit-\d/] and [getIssuerUrl] *)

Lemma replace_unfold re by_ s :
  RegExp.replace re by_ s
  = match RegExp.matchAt re s with
    | Some rest => by_ +:+ rest
    | None =>
        match s with
        | EmptyString => EmptyString
        | String c s' => String c (RegExp.replace re by_ s')
        end
    end.
Proof. by destruct s. Qed.

Lemma test_unfold re s :
  RegExp.test re s
  = match RegExp.matchAt re s with
    | Some _ => true
    | None =>
        match s with
        | EmptyString => false
        | String _ s' => RegExp.test re s'
        end
    end.
Proof. by destruct s. Qed.

Lemma matchAt_lit_inv t re s r :
  RegExp.matchAt (RegExp.lit t ++ re) s = Some r →
  ∃ s', s = t +:+ s' ∧ RegExp.matchAt re s' = Some r.
Proof.
  revert s. induction t as [|c t IH]; intros s H; simpl in *.
  - by exists s.
  - destruct s as [|c' s]; [done|].
    destruct (Ascii.eqb c' c) eqn:E; [|done].
    apply Ascii.eqb_eq in E as ->.
    apply IH in H as (s' & -> & H). by exists s'.
Qed.

Lemma matchAt_audit_re_inv s r :
  RegExp.matchAt audit_re s = Some r →
  ∃ d, RegExp.isDigit d = true ∧ s = "audit-" +:+ String d r.
Proof.
  intros (s' & -> & H)%matchAt_lit_inv. simpl in H.
  destruct s' as [|d s']; [done|].
  destruct (RegExp.isDigit d) eqn:E; [|done].
  injection H as ->. by exists d.
Qed.

Lemma matchAt_audit_re_digit d r :
  RegExp.isDigit d = true →
  RegExp.matchAt audit_re ("audit-" +:+ String d r) = Some r.
Proof. intros H. simpl. by rewrite H. Qed.

(** Two occurrences of the pattern do not overlap: a match that starts
    before an occurrence lies before it. *)
Lemma matchAt_audit_re_before c p d post :
  RegExp.isDigit d = true →
  RegExp.matchAt audit_re (String c p) = None →
  RegExp.matchAt audit_re (String c p +:+ "audit-" +:+ String d post) = None.
Proof.
  intros Hd Hnone.
  destruct (RegExp.matchAt audit_re (String c p +:+ "audit-" +:+ String d post))
    as [r|] eqn:E; [|done].
  apply matchAt_audit_re_inv in E as (d0 & Hd0 & Heq).
  destruct p as [|c1 [|c2 [|c3 [|c4 [|c5 [|c6 p]]]]]]; simpl in Heq;
    simplify_eq; try discriminate.
  simpl in Hnone. by rewrite Hd0 in Hnone.
Qed.

(** An identifier with an occurrence of the pattern has one occurrence
    replaced. *)
Lemma replace_audit_re_occurrence pre' d' post' :
  RegExp.isDigit d' = true →
  ∃ pre d post,
    RegExp.isDigit d = true ∧
    pre' +:+ "audit-" +:+ String d' post' = pre +:+ "audit-" +:+ String d post ∧
    RegExp.replace audit_re "audit" (pre' +:+ "audit-" +:+ String d' post')
    = pre +:+ "audit" +:+ post.
Proof.
  intros Hd'. induction pre' as [|c p IH].
  - exists "", d', post'. repeat split; [done|].
    change ("" +:+ "audit-" +:+ String d' post') with ("audit-" +:+ String d' post').
    rewrite replace_unfold.
    by rewrite (matchAt_audit_re_digit d' post' Hd').
  - rewrite replace_unfold.
    destruct (RegExp.matchAt audit_re (String c p +:+ "audit-" +:+ String d' post'))
      as [r|] eqn:E.
    + apply matchAt_audit_re_inv in E as (d & Hd & ->). by exists "", d, r.
    + destruct IH as (pre & d & post & Hd & Heq & Hrep).
      exists (String c pre), d, post. split; [done|].
      change (String c p +:+ "audit-" +:+ String d' post')
        with (String c (p +:+ "audit-" +:+ String d' post')).
      cbv iota. rewrite Hrep, Heq. done.
Qed.

(** The occurrence that is replaced is the leftmost one. *)
Lemma replace_audit_re_leftmost pre d post :
  RegExp.test audit_re pre = false →
  RegExp.isDigit d = true →
  RegExp.replace audit_re "audit" (pre +:+ "audit-" +:+ String d post)
  = pre +:+ "audit" +:+ post.
Proof.
  intros Hpre Hd. induction pre as [|c p IH].
  - change ("" +:+ "audit-" +:+ String d post) with ("audit-" +:+ String d post).
    rewrite replace_unfold. by rewrite (matchAt_audit_re_digit d post Hd).
  - rewrite test_unfold in Hpre.
    destruct (RegExp.matchAt audit_re (String c p)) eqn:E; [done|].
    rewrite replace_unfold, (matchAt_audit_re_before c p d post Hd E).
    change (String c p +:+ "audit-" +:+ String d post)
      with (String c (p +:+ "audit-" +:+ String d post)).
    cbv iota. by rewrite (IH Hpre).
Qed.

Lemma removedKidsOf_singletons pik cik :
  removedKidsOf [pik] [cik] = pairEntry pik cik.
Proof. rewrite removedKidsOf_bind. simpl. by rewrite !app_nil_r. Qed.

(** [C8]: in test mode an identifier that contains [audit-] followed by a
    digit is compared with such an occurrence replaced by [audit], so that
    ["https://x/audit-1"] and ["https://x/audit-2"] both become
    ["https://x/audit"], and two snapshots that hold the one and the other
    show no new and no deleted issuer and have their keys compared; without
    test mode identifiers are taken as they are, and the same two snapshots
    show one new and one deleted issuer. *)
Theorem getIssuerUrl_test_mode :
  (∀ pre' d' post',
     RegExp.isDigit d' = true →
     ∃ pre d post,
       RegExp.isDigit d = true ∧
       pre' +:+ "audit-" +:+ String d' post' = pre +:+ "audit-" +:+ String d post ∧
       getIssuerUrl true (pre' +:+ "audit-" +:+ String d' post')
       = pre +:+ "audit" +:+ post) ∧
  (∀ iss, getIssuerUrl false iss = iss) ∧
  getIssuerUrl true "https://x/audit-1" = "https://x/audit" ∧
  getIssuerUrl true "https://x/audit-2" = "https://x/audit" ∧
  (∀ directory1 time1 name1 keys1 errors1 directory2 time2 name2 keys2 errors2,
     let previous :=
       DirectoryLog.mk directory1 time1
         [IssuerLogInfo.mk (TrustedIssuer.mk "https://x/audit-1" name1) keys1 errors1] in
     let current :=
       DirectoryLog.mk directory2 time2
         [IssuerLogInfo.mk (TrustedIssuer.mk "https://x/audit-2" name2) keys2 errors2] in
     AuditLog.newIssuerCount (audit true current (Some previous)) = Some 0 ∧
     AuditLog.deletedIssuerCount (audit true current (Some previous)) = Some 0 ∧
     AuditLog.removedKids (audit true current (Some previous))
     = Some (pairEntry (IssuerKids.mk "https://x/audit" (Key.kid <$> keys1))
                       (IssuerKids.mk "https://x/audit" (Key.kid <$> keys2))) ∧
     AuditLog.newIssuerCount (audit false current (Some previous)) = Some 1 ∧
     AuditLog.deletedIssuerCount (audit false current (Some previous)) = Some 1 ∧
     AuditLog.removedKids (audit false current (Some previous)) = Some []).
Proof.
  split; [|split; [done|split; [done|split; [done|]]]].
  - intros pre' d' post' Hd'. apply replace_audit_re_occurrence, Hd'.
  - intros. repeat split.
    unfold audit. cbn [AuditLog.removedKids]. f_equal.
    apply removedKidsOf_singletons.
Qed.

Lemma getIssuerUrl_test_mode_witness :
  ∃ pre d post,
    RegExp.isDigit d = true ∧
    "https://x/" +:+ "audit-" +:+ String "7" "/issuer"
    = pre +:+ "audit-" +:+ String d post ∧
    getIssuerUrl true ("https://x/" +:+ "audit-" +:+ String "7" "/issuer")
    = pre +:+ "audit" +:+ post.
Proof.
  apply (proj1 getIssuerUrl_test_mode "https://x/" "7"%char "/issuer"). reflexivity.
Defined.

(** [C10]: in test mode, when the text [pre] in front of an occurrence of
    [audit-] followed by a digit holds no occurrence, that occurrence alone
    is replaced by [audit]: the text [post] behind it, with the occurrences
    it holds, is part of the comparison key as it is. Two identifiers that
    differ in a later occurrence only are therefore not duplicates of each
    other, and two that differ in the first occurrence only are. *)
Theorem getIssuerUrl_replaces_leftmost_only pre d post :
  RegExp.test audit_re pre = false →
  RegExp.isDigit d = true →
  getIssuerUrl true (pre +:+ "audit-" +:+ String d post) = pre +:+ "audit" +:+ post ∧
  AuditLog.duplicatedIss
    (audit true (logOf [entry "x/audit-1/audit-7" []; entry "x/audit-2/audit-7" []]) None)
  = ["x/audit/audit-7"] ∧
  AuditLog.duplicatedIss
    (audit true (logOf [entry "x/audit-1/audit-7" []; entry "x/audit-1/audit-8" []]) None)
  = [] ∧
  AuditLog.newIssuerCount
    (audit true (logOf [entry "x/audit-1/audit-8" []])
           (Some (logOf [entry "x/audit-1/audit-7" []])))
  = Some 1.
Proof.
  intros Hpre Hd. split; [|done]. by apply replace_audit_re_leftmost.
Qed.

Lemma getIssuerUrl_replaces_leftmost_only_witness :
  getIssuerUrl true ("x/" +:+ "audit-" +:+ String "1" "/audit-2/audit-3")
  = "x/" +:+ "audit" +:+ "/audit-2/audit-3".
Proof.
  apply (getIssuerUrl_replaces_leftmost_only "x/" "1"%char "/audit-2/audit-3");
    reflexivity.
Defined.

(** ** [fetchDirectory]: the join over the issuers *)

Section fetch_facts.

Variable got : nat → string → Thrown.t + Response.t.
Variable JSON_parse : string → Thrown.t + Value.t.
Variable now : string.

Lemma settle_startIssuer i issuer :
  settle got JSON_parse (startIssuer (S i) issuer)
  = Returned (fetchedEntry got JSON_parse i issuer).
Proof. reflexivity. Qed.

Lemma settle_idemp t :
  settle got JSON_parse (settle got JSON_parse t) = settle got JSON_parse t.
Proof. by destruct t. Qed.

(** A task after the schedule: settled if its index occurs in the
    schedule, as it was if not. *)
Lemma runSchedule_lookup schedule tasks i :
  runSchedule got JSON_parse schedule tasks !! i
  = (if decide (i ∈ schedule) then settle got JSON_parse else id) <$> tasks !! i.
Proof.
  unfold runSchedule. revert tasks.
  induction schedule as [|j schedule IH]; intros tasks.
  - rewrite decide_False by apply not_elem_of_nil. simpl.
    by rewrite option_fmap_id.
  - cbn [foldl]. rewrite IH. destruct (decide (j = i)) as [->|Hne].
    + rewrite list_lookup_alter_eq, (decide_True (P := i ∈ i :: schedule)) by left.
      destruct (tasks !! i) as [t|]; [|by case_decide]. simpl.
      case_decide; simpl; [by rewrite settle_idemp | done].
    + rewrite list_lookup_alter_ne by done.
      destruct (decide (i ∈ schedule)) as [Hin|Hn].
      * by rewrite (decide_True (P := i ∈ j :: schedule)) by (by right).
      * rewrite (decide_False (P := i ∈ j :: schedule)); [done|].
        intros [->|?]%elem_of_cons; done.
Qed.

Lemma runSchedule_allSettle schedule (issuers : list TrustedIssuer.t) :
  allSettle schedule (length issuers) →
  runSchedule got JSON_parse schedule (imap (λ i issuer, startIssuer (S i) issuer) issuers)
  = Returned <$> imap (fetchedEntry got JSON_parse) issuers.
Proof.
  intros Hall. apply list_eq. intros i.
  rewrite runSchedule_lookup, list_lookup_fmap, !list_lookup_imap.
  destruct (issuers !! i) as [issuer|] eqn:E; [|by case_decide].
  rewrite decide_True; [done|]. apply Hall. by eapply lookup_lt_Some.
Qed.

Lemma Promise_all_Returned (infos : list FetchedInfo) :
  Promise_all (Returned <$> infos) = Some infos.
Proof. unfold Promise_all. by apply mapM_fmap_Some. Qed.

Lemma fetchIssuers_allSettle schedule directoryUrl issuers :
  allSettle schedule (length (TrustedIssuers.participating_issuers issuers)) →
  fetchIssuers got JSON_parse now schedule directoryUrl issuers
  = Fulfilled (DirectoryLog.mk directoryUrl now
                 (imap (fetchedEntry got JSON_parse)
                       (TrustedIssuers.participating_issuers issuers))).
Proof.
  intros Hall. unfold fetchIssuers.
  by rewrite runSchedule_allSettle, Promise_all_Returned.
Qed.

(** While a request has not settled, the promise of [fetchDirectory] is
    pending. *)
Lemma fetchIssuers_pending schedule directoryUrl issuers i :
  i < length (TrustedIssuers.participating_issuers issuers) →
  i ∉ schedule →
  fetchIssuers got JSON_parse now schedule directoryUrl issuers = Pending.
Proof.
  intros Hi Hn. unfold fetchIssuers.
  destruct (Promise_all _) as [infos|] eqn:E; [|done].
  apply mapM_Some_1 in E.
  apply lookup_lt_is_Some_2 in Hi as [issuer Hissuer].
  assert (runSchedule got JSON_parse schedule
            (imap (λ i issuer, startIssuer (S i) issuer)
                  (TrustedIssuers.participating_issuers issuers)) !! i
          = Some (startIssuer (S i) issuer)) as Ht.
  { rewrite runSchedule_lookup, list_lookup_imap, Hissuer.
    by rewrite decide_False by done. }
  destruct (Forall2_lookup_l _ _ _ _ _ E Ht) as (info & _ & Hret). done.
Qed.

Lemma fetchDirectory_allSettle schedule directoryUrl response document issuers :
  got 0 directoryUrl = inr response →
  JSON_parse (Response.body response) = inr document →
  asTrustedIssuers document = Some issuers →
  allSettle schedule (length (TrustedIssuers.participating_issuers issuers)) →
  fetchDirectory got JSON_parse now schedule directoryUrl
  = Fulfilled (DirectoryLog.mk directoryUrl now
                 (imap (fetchedEntry got JSON_parse)
                       (TrustedIssuers.participating_issuers issuers))).
Proof.
  intros Hgot Hparse Htyped Hall. unfold fetchDirectory.
  rewrite Hgot, Hparse, Htyped. by apply fetchIssuers_allSettle.
Qed.

(** The entry of an issuer whose request or whose parse throws. *)
Lemma fetchedEntry_thrown i issuer err :
  tryKeys JSON_parse (got (S i) (jwkURLOf issuer)) = inl err →
  fetchedEntry got JSON_parse i issuer
  = IssuerLogInfo.mk issuer (Value.Array []) (Some [Thrown.toString err]).
Proof. intros H. unfold fetchedEntry, resumeIssuer. by rewrite H. Qed.

(** The entry of an issuer for which nothing is thrown. *)
Lemma fetchedEntry_keys i issuer keys :
  tryKeys JSON_parse (got (S i) (jwkURLOf issuer)) = inr keys →
  fetchedEntry got JSON_parse i issuer = IssuerLogInfo.mk issuer keys (Some []).
Proof. intros H. unfold fetchedEntry, resumeIssuer. by rewrite H. Qed.

(** In an entry, [errors] is not empty exactly when something was thrown,
    and [keys] is then the empty array. *)
Lemma fetchedEntry_errors i issuer :
  (IssuerLogInfo.errors (fetchedEntry got JSON_parse i issuer) ≠ Some [] ↔
   ∃ err, tryKeys JSON_parse (got (S i) (jwkURLOf issuer)) = inl err) ∧
  (IssuerLogInfo.errors (fetchedEntry got JSON_parse i issuer) ≠ Some [] →
   IssuerLogInfo.keys (fetchedEntry got JSON_parse i issuer) = Value.Array []).
Proof.
  destruct (tryKeys JSON_parse (got (S i) (jwkURLOf issuer))) as [err|keys] eqn:E.
  - rewrite (fetchedEntry_thrown _ _ _ E). simpl. split; [|done].
    split; [by exists err | done].
  - rewrite (fetchedEntry_keys _ _ _ E). simpl. split; [|done].
    split; [done | by intros [? ?]].
Qed.

End fetch_facts.

Lemma issuer_fetchedEntry got JSON_parse i issuer :
  IssuerLogInfo.issuer (fetchedEntry got JSON_parse i issuer) = issuer.
Proof. unfold fetchedEntry, resumeIssuer. by destruct (tryKeys _ _). Qed.

Lemma issuer_imap_fetchedEntry got JSON_parse (issuers : list TrustedIssuer.t) :
  IssuerLogInfo.issuer <$> imap (fetchedEntry got JSON_parse) issuers = issuers.
Proof.
  apply list_eq. intros i. rewrite list_lookup_fmap, list_lookup_imap.
  destruct (issuers !! i); [|done]. simpl. by rewrite issuer_fetchedEntry.
Qed.

Lemma allSettle_demo : allSettle [2; 0; 1] 3.
Proof.
  intros i Hi. destruct i as [|[|[|i]]]; [ | | | lia];
    apply (bool_decide_unpack _); exact I.
Qed.

(** [C4]: for a directory document with [participating_issuers], once the
    requests of all issuers have settled, in whatever order, the promise of
    [fetchDirectory] is fulfilled with a snapshot whose [issuerInfo] has one
    entry for each issuer of the directory, in the order of the directory;
    the snapshot is the same for every order in which the requests settle. *)
Theorem fetchDirectory_issuerInfo_in_order got JSON_parse now schedule
    directoryUrl response document issuers :
  got 0 directoryUrl = inr response →
  JSON_parse (Response.body response) = inr document →
  asTrustedIssuers document = Some issuers →
  allSettle schedule (length (TrustedIssuers.participating_issuers issuers)) →
  ∃ log,
    fetchDirectory got JSON_parse now schedule directoryUrl = Fulfilled log ∧
    length (DirectoryLog.issuerInfo log)
    = length (TrustedIssuers.participating_issuers issuers) ∧
    IssuerLogInfo.issuer <$> DirectoryLog.issuerInfo log
    = TrustedIssuers.participating_issuers issuers ∧
    (∀ schedule',
       allSettle schedule' (length (TrustedIssuers.participating_issuers issuers)) →
       fetchDirectory got JSON_parse now schedule' directoryUrl = Fulfilled log).
Proof.
  intros Hgot Hparse Htyped Hall. eexists. split.
  - by apply (fetchDirectory_allSettle got JSON_parse now schedule directoryUrl
                response document issuers).
  - simpl. split; [by rewrite length_imap|].
    split; [apply issuer_imap_fetchedEntry|].
    intros schedule' Hall'.
    by apply (fetchDirectory_allSettle got JSON_parse now schedule' directoryUrl
                response document issuers).
Qed.

Lemma fetchDirectory_issuerInfo_in_order_witness :
  ∃ log,
    fetchDirectory Demo.got Demo.JSON_parse "2021-01-01 00:00:00" [2; 0; 1]
      "https://directory" = Fulfilled log ∧
    length (DirectoryLog.issuerInfo log) = 3 ∧
    IssuerLogInfo.issuer <$> DirectoryLog.issuerInfo log
    = TrustedIssuers.participating_issuers Demo.issuers ∧
    (∀ schedule',
       allSettle schedule' 3 →
       fetchDirectory Demo.got Demo.JSON_parse "2021-01-01 00:00:00" schedule'
         "https://directory" = Fulfilled log).
Proof.
  apply (fetchDirectory_issuerInfo_in_order Demo.got Demo.JSON_parse
           "2021-01-01 00:00:00" [2; 0; 1] "https://directory"
           (Response.mk Demo.directoryText) Demo.directoryValue Demo.issuers);
    [reflexivity | reflexivity | reflexivity | exact allSettle_demo].
Defined.

(** [C2]: when the key fetch of the issuer at index [i] fails, because
    [got] throws (no connection, a timeout, a response code that is not a
    success) or because the body does not parse, the promise of
    [fetchDirectory] is still fulfilled, with one entry for each issuer; the
    entry at [i] has [keys = []] and one error text; every other entry is
    what it is on a network [gotOk] that differs in the outcome of that one
    request only. *)
Theorem fetchDirectory_isolates_failure got gotOk JSON_parse now schedule schedule'
    directoryUrl response document issuers i issuer err :
  got 0 directoryUrl = inr response →
  JSON_parse (Response.body response) = inr document →
  asTrustedIssuers document = Some issuers →
  allSettle schedule (length (TrustedIssuers.participating_issuers issuers)) →
  allSettle schedule' (length (TrustedIssuers.participating_issuers issuers)) →
  TrustedIssuers.participating_issuers issuers !! i = Some issuer →
  (got (S i) (jwkURLOf issuer) = inl err ∨
   ∃ r, got (S i) (jwkURLOf issuer) = inr r ∧ JSON_parse (Response.body r) = inl err) →
  (∀ request url, request ≠ S i → gotOk request url = got request url) →
  ∃ log logOk,
    fetchDirectory got JSON_parse now schedule directoryUrl = Fulfilled log ∧
    fetchDirectory gotOk JSON_parse now schedule' directoryUrl = Fulfilled logOk ∧
    length (DirectoryLog.issuerInfo log)
    = length (TrustedIssuers.participating_issuers issuers) ∧
    DirectoryLog.issuerInfo log !! i
    = Some (IssuerLogInfo.mk issuer (Value.Array []) (Some [Thrown.toString err])) ∧
    (∀ j, j ≠ i →
          DirectoryLog.issuerInfo log !! j = DirectoryLog.issuerInfo logOk !! j).
Proof.
  intros Hgot Hparse Htyped Hall Hall' Hissuer Hfail Hsame.
  eexists. eexists. split; [|split].
  - by apply (fetchDirectory_allSettle got JSON_parse now schedule directoryUrl
                response document issuers).
  - apply (fetchDirectory_allSettle gotOk JSON_parse now schedule' directoryUrl
             response document issuers); try done.
    by rewrite Hsame by done.
  - simpl. split; [by rewrite length_imap|]. split.
    + rewrite list_lookup_imap, Hissuer. simpl. f_equal.
      apply fetchedEntry_thrown. unfold tryKeys.
      destruct Hfail as [-> | (r & -> & ->)]; done.
    + intros j Hj. rewrite !list_lookup_imap.
      destruct (TrustedIssuers.participating_issuers issuers !! j); [|done].
      simpl. unfold fetchedEntry. rewrite Hsame; [done|]. congruence.
Qed.

Lemma fetchDirectory_isolates_failure_witness :
  ∃ log logOk,
    fetchDirectory Demo.got Demo.JSON_parse "2021-01-01 00:00:00" [2; 0; 1]
      "https://directory" = Fulfilled log ∧
    fetchDirectory Demo.gotAll Demo.JSON_parse "2021-01-01 00:00:00" [0; 1; 2]
      "https://directory" = Fulfilled logOk ∧
    length (DirectoryLog.issuerInfo log) = 3 ∧
    DirectoryLog.issuerInfo log !! 1
    = Some (IssuerLogInfo.mk (TrustedIssuer.mk "https://b" "B") (Value.Array [])
              (Some ["RequestError: connect ECONNREFUSED"])) ∧
    (∀ j, j ≠ 1 →
          DirectoryLog.issuerInfo log !! j = DirectoryLog.issuerInfo logOk !! j).
Proof.
  apply (fetchDirectory_isolates_failure Demo.got Demo.gotAll Demo.JSON_parse
           "2021-01-01 00:00:00" [2; 0; 1] [0; 1; 2] "https://directory"
           (Response.mk Demo.directoryText) Demo.directoryValue Demo.issuers
           1 (TrustedIssuer.mk "https://b" "B")
           (Thrown.Error "RequestError" "connect ECONNREFUSED")).
  - reflexivity.
  - reflexivity.
  - reflexivity.
  - exact allSettle_demo.
  - intros j Hj. destruct j as [|[|[|j]]]; [ | | | simpl in Hj; lia];
      apply (bool_decide_unpack _); exact I.
  - reflexivity.
  - left. reflexivity.
  - intros request url Hne.
    destruct request as [|[|[|request]]]; [reflexivity | reflexivity | lia | reflexivity].
Defined.

(** [C5]: the key set of the issuer at index [i] is fetched, and its body
    parses to an object that has no [keys]: nothing is thrown, the entry of
    the issuer has [keys = undefined], not [[]], and its [errors] is empty. *)
Theorem fetchDirectory_missing_keys_not_caught got JSON_parse now schedule
    directoryUrl response document issuers i issuer r props :
  got 0 directoryUrl = inr response →
  JSON_parse (Response.body response) = inr document →
  asTrustedIssuers document = Some issuers →
  allSettle schedule (length (TrustedIssuers.participating_issuers issuers)) →
  TrustedIssuers.participating_issuers issuers !! i = Some issuer →
  got (S i) (jwkURLOf issuer) = inr r →
  JSON_parse (Response.body r) = inr (Value.Object props) →
  Value.own props "keys" = Value.Undefined →
  ∃ log,
    fetchDirectory got JSON_parse now schedule directoryUrl = Fulfilled log ∧
    DirectoryLog.issuerInfo log !! i
    = Some (IssuerLogInfo.mk issuer Value.Undefined (Some [])).
Proof.
  intros Hgot Hparse Htyped Hall Hissuer Hr Hkeys Hown.
  eexists. split.
  - by apply (fetchDirectory_allSettle got JSON_parse now schedule directoryUrl
                response document issuers).
  - simpl. rewrite list_lookup_imap, Hissuer. simpl. f_equal.
    apply fetchedEntry_keys. unfold tryKeys. rewrite Hr, Hkeys. simpl.
    by rewrite Hown.
Qed.

Lemma fetchDirectory_missing_keys_not_caught_witness :
  ∃ log,
    fetchDirectory Demo.got Demo.JSON_parse "2021-01-01 00:00:00" [2; 0; 1]
      "https://directory" = Fulfilled log ∧
    DirectoryLog.issuerInfo log !! 0
    = Some (IssuerLogInfo.mk (TrustedIssuer.mk "https://a" "A") Value.Undefined (Some [])).
Proof.
  apply (fetchDirectory_missing_keys_not_caught Demo.got Demo.JSON_parse
           "2021-01-01 00:00:00" [2; 0; 1] "https://directory"
           (Response.mk Demo.directoryText) Demo.directoryValue Demo.issuers
           0 (TrustedIssuer.mk "https://a" "A") (Response.mk "{}") []);
    [reflexivity | reflexivity | reflexivity | exact allSettle_demo
    | reflexivity | reflexivity | reflexivity | reflexivity].
Defined.

(** The snapshot of the example, in full. *)
Example fetchDirectory_demo :
  fetchDirectory Demo.got Demo.JSON_parse "2021-01-01 00:00:00" [2; 0; 1]
    "https://directory"
  = Fulfilled
      (DirectoryLog.mk "https://directory" "2021-01-01 00:00:00"
         [IssuerLogInfo.mk (TrustedIssuer.mk "https://a" "A") Value.Undefined (Some []);
          IssuerLogInfo.mk (TrustedIssuer.mk "https://b" "B") (Value.Array [])
            (Some ["RequestError: connect ECONNREFUSED"]);
          IssuerLogInfo.mk (TrustedIssuer.mk "https://c" "C")
            (Value.Array [Value.Object [("kid", Value.Str "k1")]]) (Some [])]).
Proof. reflexivity. Qed.

Example fetchDirectory_demo_pending :
  fetchDirectory Demo.got Demo.JSON_parse "2021-01-01 00:00:00" [2; 0]
    "https://directory" = Pending.
Proof. reflexivity. Qed.

(** * Further properties *)

(** ** [getDuplicates] *)

Lemma count_filter_ne (items : list string) v w :
  w ≠ v → count (filter (λ y, y ≠ v) items) w = count items w.
Proof.
  intros Hne. unfold count. induction items as [|x items IH]; [done|].
  destruct (decide (x = v)) as [->|Hx].
  - rewrite (filter_cons_False (λ y, y ≠ v)) by tauto.
    by rewrite (filter_cons_False (λ y, y = w)) by congruence.
  - rewrite (filter_cons_True (λ y, y ≠ v)) by done.
    destruct (decide (x = w)) as [->|Hw].
    + rewrite !(filter_cons_True (λ y, y = w)) by done. simpl. by rewrite IH.
    + by rewrite !(filter_cons_False (λ y, y = w)) by done.
Qed.

Lemma length_filter_ne (items : list string) v :
  length items = count items v + length (filter (λ y, y ≠ v) items).
Proof.
  unfold count. induction items as [|x items IH]; [done|].
  destruct (decide (x = v)) as [->|Hx].
  - rewrite (filter_cons_True (λ y, y = v)) by done.
    rewrite (filter_cons_False (λ y, y ≠ v)) by tauto. simpl. lia.
  - rewrite (filter_cons_False (λ y, y = v)) by done.
    rewrite (filter_cons_True (λ y, y ≠ v)) by done. simpl. lia.
Qed.

(** Distinct values that each occur twice take up two places each. *)
Lemma twice_each_length (d items : list string) :
  NoDup d → (∀ v, v ∈ d → 2 ≤ count items v) → 2 * length d ≤ length items.
Proof.
  revert items. induction d as [|v d IH]; intros items Hnd Hcount; [simpl; lia|].
  apply NoDup_cons in Hnd as [Hv Hnd].
  specialize (IH (filter (λ y, y ≠ v) items) Hnd).
  assert (2 ≤ count items v) as H2 by (apply Hcount; left).
  rewrite (length_filter_ne items v). simpl.
  enough (2 * length d ≤ length (filter (λ y, y ≠ v) items)) by lia.
  apply IH. intros w Hw. rewrite count_filter_ne.
  - apply Hcount. by right.
  - intros ->. contradiction.
Qed.

Lemma count_NoDup (items : list string) v : NoDup items → count items v ≤ 1.
Proof.
  induction 1 as [|x items Hx Hnd IH]; [unfold count; simpl; lia|].
  destruct (decide (x = v)) as [->|Hne].
  - rewrite count_cons_eq.
    enough (count items v = 0) by lia.
    destruct (count items v) eqn:E; [done|].
    destruct Hx. apply count_pos. lia.
  - by rewrite count_cons_ne.
Qed.

Lemma count_Permutation (items items' : list string) v :
  items ≡ₚ items' → count items v = count items' v.
Proof. intros H. unfold count. by rewrite H. Qed.

Lemma getDuplicates_nil_count items :
  getDuplicates items = [] ↔ ∀ v, v ≠ "" → count items v ≤ 1.
Proof.
  split.
  - intros Hnil v Hv. destruct (decide (2 ≤ count items v)) as [H2|]; [|lia].
    assert (v ∈ getDuplicates items) as Hin by (by apply elem_of_getDuplicates).
    rewrite Hnil in Hin. by apply elem_of_nil in Hin.
  - intros Hle. destruct (getDuplicates items) as [|v l] eqn:E; [done|].
    assert (v ∈ getDuplicates items) as Hin by (rewrite E; left).
    apply elem_of_getDuplicates in Hin as [Hv H2]. specialize (Hle v Hv). lia.
Qed.

(** [X1]: [getDuplicates] returns exactly the non-empty strings that occur
    at least twice in its argument. *)
Theorem getDuplicates_reports_nonempty_repeated items v :
  v ∈ getDuplicates items ↔ v ≠ "" ∧ 2 ≤ count items v.
Proof. apply elem_of_getDuplicates. Qed.


(** [X2]: no string occurs twice in the result of [getDuplicates], and
    every string of the result is an element of the argument. *)
Theorem getDuplicates_no_repetition items :
  NoDup (getDuplicates items) ∧ getDuplicates items ⊆ items.
Proof.
  split; [apply NoDup_getDuplicates|].
  intros v [_ H]%elem_of_getDuplicates. apply count_pos. lia.
Qed.

(** [X3]: [getDuplicates] reports at most half as many strings as its
    argument has elements. *)
Theorem getDuplicates_length_bound items :
  2 * length (getDuplicates items) ≤ length items.
Proof.
  apply twice_each_length; [apply NoDup_getDuplicates|].
  by intros v [_ H]%elem_of_getDuplicates.
Qed.

(** [X4]: [getDuplicates] returns the empty array exactly when no non-empty
    string occurs twice; so it does for an array without repetition. *)
Theorem getDuplicates_empty_iff items :
  (getDuplicates items = [] ↔ ∀ v, v ≠ "" → count items v ≤ 1) ∧
  (NoDup items → getDuplicates items = []).
Proof.
  split; [apply getDuplicates_nil_count|].
  intros Hnd. apply getDuplicates_nil_count. intros v _. by apply count_NoDup.
Qed.

Lemma getDuplicates_empty_iff_witness :
  NoDup ["k1"; "k2"; ""] ∧ getDuplicates ["k1"; "k2"; ""] = [].
Proof.
  assert (NoDup ["k1"; "k2"; ""]) as Hnd
    by (apply (bool_decide_unpack _); exact I).
  split; [exact Hnd|]. exact (proj2 (getDuplicates_empty_iff _) Hnd).
Defined.

(** [X5]: the strings reported do not depend on the order of the argument:
    for a permutation of the argument, [getDuplicates] returns a permutation
    of the result. *)
Theorem getDuplicates_Permutation items items' :
  items ≡ₚ items' → getDuplicates items ≡ₚ getDuplicates items'.
Proof.
  intros Hperm. apply NoDup_Permutation; try apply NoDup_getDuplicates.
  intros v. by rewrite !elem_of_getDuplicates, (count_Permutation _ _ v Hperm).
Qed.

Lemma getDuplicates_Permutation_witness :
  ["a"; "b"; "a"; "b"] ≡ₚ ["b"; "b"; "a"; "a"] ∧
  getDuplicates ["a"; "b"; "a"; "b"] ≡ₚ getDuplicates ["b"; "b"; "a"; "a"].
Proof.
  assert (["a"; "b"; "a"; "b"] ≡ₚ ["b"; "b"; "a"; "a"]) as Hperm.
  { apply (bool_decide_unpack _). exact I. }
  split; [exact Hperm|]. exact (getDuplicates_Permutation _ _ Hperm).
Defined.

(** [X6]: applied to its own result, [getDuplicates] returns the empty
    array. *)
Theorem getDuplicates_twice items : getDuplicates (getDuplicates items) = [].
Proof.
  apply getDuplicates_nil_count. intros v _.
  apply count_NoDup, NoDup_getDuplicates.
Qed.

Lemma new_sublist_from (l : list string) s :
  ∃ k, foldl Js.StringSet.add s l = s ++ k ∧ k `sublist_of` l.
Proof.
  revert s. induction l as [|x l IH]; intros s; simpl.
  - exists []. by rewrite app_nil_r.
  - unfold Js.StringSet.add at 2. destruct (Js.StringSet.has s x).
    + destruct (IH s) as (k & -> & Hk). exists k. split; [done|].
      by apply sublist_cons.
    + destruct (IH (s ++ [x])) as (k & -> & Hk). exists (x :: k).
      split; [by rewrite <- app_assoc | by apply sublist_skip].
Qed.

Lemma filter_callback_sublist l set :
  Js.filterSt Js.truthyReturn getDuplicates_callback set l `sublist_of` l.
Proof.
  revert set. induction l as [|item rest IH]; intros set; simpl; [done|].
  unfold getDuplicates_callback. destruct (Js.StringSet.has set item); simpl.
  - apply sublist_cons, IH.
  - destruct (Js.truthyString item);
      [apply sublist_skip, IH | apply sublist_cons, IH].
Qed.

(** [X7]: the strings reported stand in the order in which they stand in
    the argument: the result of [getDuplicates] is a subsequence of it. *)
Theorem getDuplicates_sublist items : getDuplicates items `sublist_of` items.
Proof.
  unfold getDuplicates, Js.StringSet.toArray, Js.StringSet.new.
  destruct (new_sublist_from
              (Js.filterSt Js.truthyReturn getDuplicates_callback
                 (foldl Js.StringSet.add [] items) items) [])
    as (k & -> & Hk).
  simpl. etrans; [exact Hk | apply filter_callback_sublist].
Qed.

(** ** [audit]: the issuer counts *)

Lemma countNotIn_le xs ys : countNotIn xs ys ≤ length xs.
Proof. unfold countNotIn. apply length_filter. Qed.

Lemma countNotIn_zero xs ys : countNotIn xs ys = 0 ↔ xs ⊆ ys.
Proof.
  unfold countNotIn. split.
  - intros H%nil_length_inv x Hx.
    destruct (decide (x ∈ ys)) as [|Hn]; [done|].
    by destruct (filter_nil_not_elem_of _ _ x H Hn).
  - intros H. by rewrite filter_not_elem_of_subseteq.
Qed.

Lemma length_countNotIn (xs ys : list string) :
  length xs = length (filter (λ x, x ∈ ys) xs) + countNotIn xs ys.
Proof.
  unfold countNotIn. rewrite <- length_app.
  by rewrite (filter_app_complement (λ x, x ∈ ys) xs).
Qed.

Lemma common_length (xs ys : list string) :
  NoDup xs → NoDup ys →
  length (filter (λ x, x ∈ ys) xs) = length (filter (λ y, y ∈ xs) ys).
Proof.
  intros Hx Hy. apply Permutation_length, NoDup_Permutation.
  - by apply NoDup_filter.
  - by apply NoDup_filter.
  - intros v. rewrite !list_elem_of_filter. tauto.
Qed.

(** [X8]: [newIssuerCount] is at most [issuerCount], and it is 0 exactly
    when every normalized identifier of the current snapshot is one of the
    previous snapshot; [deletedIssuerCount] is at most the number of entries
    of the previous snapshot, and it is 0 exactly when every normalized
    identifier of the previous snapshot is one of the current snapshot. *)
Theorem audit_issuer_count_bounds isTest (current previous : Directory) :
  ∃ new deleted,
    AuditLog.newIssuerCount (audit isTest current (Some previous)) = Some new ∧
    AuditLog.deletedIssuerCount (audit isTest current (Some previous)) = Some deleted ∧
    new ≤ AuditLog.issuerCount (audit isTest current (Some previous)) ∧
    deleted ≤ length (DirectoryLog.issuerInfo previous) ∧
    (new = 0 ↔ getIssuers isTest current ⊆ getIssuers isTest previous) ∧
    (deleted = 0 ↔ getIssuers isTest previous ⊆ getIssuers isTest current).
Proof.
  eexists. eexists. split; [reflexivity|]. split; [reflexivity|].
  rewrite !countMissing_countNotIn. simpl.
  split; [|split; [|split]].
  - etrans; [apply countNotIn_le|]. by rewrite getIssuers_map, length_fmap.
  - etrans; [apply countNotIn_le|]. by rewrite getIssuers_map, length_fmap.
  - apply countNotIn_zero.
  - apply countNotIn_zero.
Qed.

(** [X9]: when no normalized identifier occurs twice in the current
    snapshot and none occurs twice in the previous one, the issuers balance:
    the current count plus the deleted ones is the previous count plus the
    new ones. *)
Theorem audit_issuer_balance isTest (current previous : Directory) :
  NoDup (getIssuers isTest current) →
  NoDup (getIssuers isTest previous) →
  ∃ new deleted,
    AuditLog.newIssuerCount (audit isTest current (Some previous)) = Some new ∧
    AuditLog.deletedIssuerCount (audit isTest current (Some previous)) = Some deleted ∧
    AuditLog.issuerCount (audit isTest current (Some previous)) + deleted
    = length (DirectoryLog.issuerInfo previous) + new.
Proof.
  intros Hc Hp. eexists. eexists. split; [reflexivity|]. split; [reflexivity|].
  rewrite !countMissing_countNotIn. simpl.
  pose proof (length_countNotIn (getIssuers isTest current)
                                (getIssuers isTest previous)) as H1.
  pose proof (length_countNotIn (getIssuers isTest previous)
                                (getIssuers isTest current)) as H2.
  pose proof (common_length _ _ Hc Hp) as H3.
  rewrite getIssuers_map, length_fmap in H1 at 1.
  rewrite getIssuers_map, length_fmap in H2 at 1.
  lia.
Qed.

Lemma audit_issuer_balance_witness :
  ∃ new deleted,
    AuditLog.newIssuerCount
      (audit false (logOf [entry "A" []; entry "B" []; entry "D" []])
             (Some (logOf [entry "A" []; entry "C" []]))) = Some new ∧
    AuditLog.deletedIssuerCount
      (audit false (logOf [entry "A" []; entry "B" []; entry "D" []])
             (Some (logOf [entry "A" []; entry "C" []]))) = Some deleted ∧
    AuditLog.issuerCount
      (audit false (logOf [entry "A" []; entry "B" []; entry "D" []])
             (Some (logOf [entry "A" []; entry "C" []]))) + deleted
    = length (DirectoryLog.issuerInfo (logOf [entry "A" []; entry "C" []])) + new.
Proof.
  apply (audit_issuer_balance false
           (logOf [entry "A" []; entry "B" []; entry "D" []])
           (logOf [entry "A" []; entry "C" []]));
    apply (bool_decide_unpack _); exact I.
Defined.

(** What [audit] counts as new from the previous to the current
    snapshot is what it counts as deleted from the current to the previous
    one. *)
Theorem audit_counts_swap isTest (a b : Directory) :
  AuditLog.newIssuerCount (audit isTest a (Some b))
  = AuditLog.deletedIssuerCount (audit isTest b (Some a)) ∧
  AuditLog.deletedIssuerCount (audit isTest a (Some b))
  = AuditLog.newIssuerCount (audit isTest b (Some a)).
Proof. split; reflexivity. Qed.

(** [X10]: compared with an empty previous snapshot every issuer is new,
    and compared with an empty current snapshot every previous issuer is
    deleted; in both cases no key is reported as removed. *)
Theorem audit_empty_snapshot isTest (s : Directory) directory time :
  let empty := DirectoryLog.mk directory time [] in
  AuditLog.newIssuerCount (audit isTest s (Some empty))
  = Some (length (DirectoryLog.issuerInfo s)) ∧
  AuditLog.deletedIssuerCount (audit isTest s (Some empty)) = Some 0 ∧
  AuditLog.removedKids (audit isTest s (Some empty)) = Some [] ∧
  AuditLog.newIssuerCount (audit isTest empty (Some s)) = Some 0 ∧
  AuditLog.deletedIssuerCount (audit isTest empty (Some s))
  = Some (length (DirectoryLog.issuerInfo s)) ∧
  AuditLog.removedKids (audit isTest empty (Some s)) = Some [].
Proof.
  assert (countNotIn (getIssuers isTest s) [] = length (DirectoryLog.issuerInfo s))
    as Hall.
  { unfold countNotIn. rewrite getIssuers_map.
    rewrite <- (length_fmap (normalizedIss isTest) (DirectoryLog.issuerInfo s)).
    f_equal. induction (normalizedIss isTest <$> DirectoryLog.issuerInfo s)
      as [|x l IH]; [done|].
    rewrite filter_cons_True by apply not_elem_of_nil. by rewrite IH. }
  assert (getIssuers isTest (DirectoryLog.mk directory time []) = []) as Hnil by done.
  assert (getIssuerKids isTest (DirectoryLog.mk directory time []) = []) as Hnil' by done.
  intros empty. unfold empty, audit.
  cbn [AuditLog.newIssuerCount AuditLog.deletedIssuerCount AuditLog.removedKids].
  rewrite !countMissing_countNotIn, !removedKidsOf_bind, Hnil, Hnil', Hall.
  repeat split. f_equal.
  induction (getIssuerKids isTest s) as [|pik l IH]; [done|].
  by rewrite bind_cons, IH.
Qed.

(** ** [audit]: errors and duplicated key ids *)

(** [X11]: [issuersWithErrors] holds, in the order of the snapshot, the
    entries whose [errors] is defined and not empty; an entry without
    [errors] is not listed. *)
Theorem audit_issuersWithErrors isTest (current : Directory) previous info :
  (info ∈ AuditLog.issuersWithErrors (audit isTest current previous) ↔
   info ∈ DirectoryLog.issuerInfo current ∧
   ∃ errs, IssuerLogInfo.errors info = Some errs ∧ errs ≠ []) ∧
  AuditLog.issuersWithErrors (audit isTest current previous)
    `sublist_of` DirectoryLog.issuerInfo current.
Proof.
  assert (AuditLog.issuersWithErrors (audit isTest current previous)
          = List.filter hasErrors (DirectoryLog.issuerInfo current)) as ->
    by (by destruct previous).
  split.
  - rewrite list_elem_of_In, List.filter_In, <- list_elem_of_In.
    unfold hasErrors. destruct (IssuerLogInfo.errors info) as [errs|].
    + rewrite bool_decide_eq_true. split.
      * intros [? Hlen]. split; [done|]. exists errs. split; [done|].
        intros ->. simpl in Hlen. lia.
      * intros [? (errs' & [= <-] & Hne)]. split; [done|].
        destruct errs; [done | simpl; lia].
    + split; [by intros [_ ?] | by intros [_ (? & ? & _)]].
  - induction (DirectoryLog.issuerInfo current) as [|x l IH]; [done|].
    simpl. destruct (hasErrors x); [by apply sublist_skip | by apply sublist_cons].
Qed.

Lemma count_app (l k : list string) v : count (l ++ k) v = count l v + count k v.
Proof. unfold count. by rewrite filter_app, length_app. Qed.

Lemma count_bind_one {A} (f : A → list string) (l : list A) j q v :
  l !! j = Some q → count (f q) v ≤ count (l ≫= f) v.
Proof.
  revert j. induction l as [|x l IH]; intros j Hq; [done|].
  rewrite bind_cons, count_app. destruct j as [|j]; simpl in Hq.
  - injection Hq as ->. lia.
  - specialize (IH j Hq). lia.
Qed.

Lemma count_bind_two {A} (f : A → list string) (l : list A) i j p q v :
  i < j → l !! i = Some p → l !! j = Some q →
  count (f p) v + count (f q) v ≤ count (l ≫= f) v.
Proof.
  revert i j. induction l as [|x l IH]; intros i j Hij Hp Hq; [done|].
  rewrite bind_cons, count_app. destruct j as [|j]; [lia|].
  simpl in Hq. destruct i as [|i]; simpl in Hp.
  - injection Hp as ->. pose proof (count_bind_one f l j q v Hq). lia.
  - assert (i < j) as Hij' by lia. specialize (IH i j Hij' Hp Hq). lia.
Qed.



(** ** [audit]: the shape of [removedKids] *)

Lemma count_fmap_iss (removed : list IssuerKids.t) x :
  count (IssuerKids.iss <$> removed) x
  = length (filter (λ e, IssuerKids.iss e = x) removed).
Proof.
  unfold count. induction removed as [|e l IH]; [done|]. rewrite fmap_cons.
  destruct (decide (IssuerKids.iss e = x)) as [Heq|Hne].
  - rewrite !filter_cons_True by done. simpl. by rewrite IH.
  - by rewrite !filter_cons_False by done.
Qed.

Lemma NoDup_of_count (l : list string) : (∀ v, count l v ≤ 1) → NoDup l.
Proof.
  induction l as [|x l IH]; intros H; [apply NoDup_nil_2|].
  apply NoDup_cons. split.
  - intros Hin%count_pos. specialize (H x). rewrite count_cons_eq in H. lia.
  - apply IH. intros v. specialize (H v).
    destruct (decide (x = v)) as [->|Hne].
    + rewrite count_cons_eq in H. lia.
    + by rewrite count_cons_ne in H.
Qed.

Lemma length_removedKidsOf P C :
  length (removedKidsOf P C) ≤ length P * length C.
Proof.
  rewrite removedKidsOf_bind. induction P as [|pik P IH]; [done|].
  rewrite bind_cons, length_app. simpl.
  enough (length (C ≫= pairEntry pik) ≤ length C) by lia.
  clear IH. induction C as [|cik C IH]; [done|].
  rewrite bind_cons, length_app. simpl.
  enough (length (pairEntry pik cik) ≤ 1) by lia.
  unfold pairEntry. case_decide; simpl; lia.
Qed.

(** [X13]: [removedKids] has at most one entry for each pair of a previous
    and a current entry, and the [kids] of an entry of [removedKids] is
    never empty. *)
Theorem removedKids_size isTest (current previous : Directory) :
  ∃ removed,
    AuditLog.removedKids (audit isTest current (Some previous)) = Some removed ∧
    length removed
    ≤ length (DirectoryLog.issuerInfo previous)
      * length (DirectoryLog.issuerInfo current) ∧
    Forall (λ e, IssuerKids.kids e ≠ []) removed.
Proof.
  eexists. split; [reflexivity|]. split.
  - etrans; [apply length_removedKidsOf|].
    by rewrite !getIssuerKids_map, !length_fmap.
  - apply Forall_forall. intros e He.
    apply elem_of_removedKidsOf in He as (p & c & _ & _ & _ & Hne & ->). done.
Qed.

(** [X14]: when no normalized identifier occurs twice in the previous
    snapshot and none occurs twice in the current one, no identifier occurs
    twice in [removedKids], and [removedKids] has at most as many entries as
    either snapshot. *)
Theorem removedKids_one_entry_per_issuer isTest (current previous : Directory) :
  NoDup (getIssuers isTest current) →
  NoDup (getIssuers isTest previous) →
  ∃ removed,
    AuditLog.removedKids (audit isTest current (Some previous)) = Some removed ∧
    NoDup (IssuerKids.iss <$> removed) ∧
    length removed ≤ length (DirectoryLog.issuerInfo previous) ∧
    length removed ≤ length (DirectoryLog.issuerInfo current).
Proof.
  intros Hc Hp. eexists. split; [reflexivity|].
  assert (NoDup (IssuerKids.iss
                   <$> removedKidsOf (getIssuerKids isTest previous)
                                     (getIssuerKids isTest current))) as Hnd.
  { apply NoDup_of_count. intros x.
    rewrite count_fmap_iss, filter_iss_removedKidsOf, length_fmap.
    etrans; [apply length_filter|].
    rewrite length_matchingPairs, !length_filter_iss_getIssuerKids.
    pose proof (count_NoDup _ x Hc). pose proof (count_NoDup _ x Hp). nia. }
  split; [exact Hnd|].
  assert (∀ x, x ∈ IssuerKids.iss
                     <$> removedKidsOf (getIssuerKids isTest previous)
                                       (getIssuerKids isTest current) →
               x ∈ getIssuers isTest previous ∧ x ∈ getIssuers isTest current)
    as Hboth.
  { intros x (e & -> & He)%list_elem_of_fmap.
    apply elem_of_removedKidsOf in He as (p & c & Hpin & Hcin & Hiss & _ & ->).
    rewrite !getIssuers_map. simpl. split.
    - by apply list_elem_of_fmap_2.
    - rewrite Hiss. by apply list_elem_of_fmap_2. }
  rewrite <- (length_fmap IssuerKids.iss).
  rewrite <- (length_fmap (normalizedIss isTest) (DirectoryLog.issuerInfo previous)).
  rewrite <- (length_fmap (normalizedIss isTest) (DirectoryLog.issuerInfo current)).
  rewrite <- !getIssuers_map.
  split; apply submseteq_length, NoDup_submseteq; try done;
    intros x Hx; by apply Hboth in Hx as [? ?].
Qed.

Lemma removedKids_one_entry_per_issuer_witness :
  ∃ removed,
    AuditLog.removedKids
      (audit true (logOf [entry "x/audit-2" ["k1"]; entry "y/audit-2" []])
             (Some (logOf [entry "x/audit-1" ["k1"; "k2"]; entry "y/audit-1" ["k3"]])))
    = Some removed ∧
    NoDup (IssuerKids.iss <$> removed) ∧
    length removed ≤ 2 ∧ length removed ≤ 2.
Proof.
  apply (removedKids_one_entry_per_issuer true
           (logOf [entry "x/audit-2" ["k1"]; entry "y/audit-2" []])
           (logOf [entry "x/audit-1" ["k1"; "k2"]; entry "y/audit-1" ["k3"]]));
    apply (bool_decide_unpack _); exact I.
Defined.


(** ** [getIssuerUrl]: identifiers that test mode changes *)

Lemma strlen_app (a b : string) :
  String.length (a +:+ b) = String.length a + String.length b.
Proof. induction a as [|c a IH]; simpl; [done | by rewrite IH]. Qed.

Lemma replace_no_match re by_ s :
  RegExp.test re s = false → RegExp.replace re by_ s = s.
Proof.
  induction s as [|c s IH]; intros H; rewrite test_unfold in H;
    rewrite replace_unfold; destruct (RegExp.matchAt re _); try done.
  by rewrite IH.
Qed.

Lemma test_audit_re_occurrence s :
  RegExp.test audit_re s = true →
  ∃ pre d post, RegExp.isDigit d = true ∧ s = pre +:+ "audit-" +:+ String d post.
Proof.
  induction s as [|c s IH]; intros H; rewrite test_unfold in H.
  - done.
  - destruct (RegExp.matchAt audit_re (String c s)) as [r|] eqn:E.
    + apply matchAt_audit_re_inv in E as (d & Hd & ->). by exists "", d, r.
    + destruct (IH H) as (pre & d & post & Hd & ->).
      by exists (String c pre), d, post.
Qed.

(** [X15]: in test mode [getIssuerUrl] changes an identifier exactly when
    the identifier contains [audit-] followed by a digit, and the changed
    identifier is two characters shorter; every other identifier is
    compared as it is. *)
Theorem getIssuerUrl_changes_iff_occurrence iss :
  (getIssuerUrl true iss ≠ iss ↔
   ∃ pre d post, RegExp.isDigit d = true ∧ iss = pre +:+ "audit-" +:+ String d post) ∧
  (getIssuerUrl true iss ≠ iss →
   String.length (getIssuerUrl true iss) + 2 = String.length iss).
Proof.
  assert ((∃ pre d post, RegExp.isDigit d = true
                         ∧ iss = pre +:+ "audit-" +:+ String d post) →
          String.length (getIssuerUrl true iss) + 2 = String.length iss) as Hlen.
  { intros (pre' & d' & post' & Hd' & ->).
    destruct (replace_audit_re_occurrence pre' d' post' Hd')
      as (pre & d & post & _ & Heq & Hrep).
    unfold getIssuerUrl. rewrite Hrep, Heq, !strlen_app. simpl. lia. }
  assert (getIssuerUrl true iss ≠ iss →
          ∃ pre d post, RegExp.isDigit d = true
                        ∧ iss = pre +:+ "audit-" +:+ String d post) as Hocc.
  { intros Hne. destruct (RegExp.test audit_re iss) eqn:E.
    - by apply test_audit_re_occurrence.
    - destruct Hne. by apply replace_no_match. }
  split; [split; [exact Hocc|] | by intros ?%Hocc%Hlen].
  intros H%Hlen Heq. rewrite Heq in H. lia.
Qed.

Lemma getIssuerUrl_changes_iff_occurrence_witness :
  String.length (getIssuerUrl true "https://x/audit-12") + 2
  = String.length "https://x/audit-12".
Proof.
  apply (proj2 (getIssuerUrl_changes_iff_occurrence "https://x/audit-12")).
  vm_compute. discriminate.
Defined.

(** ** [fetchDirectory]: rejection, completion and the shape of entries *)



Lemma fetchDirectory_typed got JSON_parse now schedule directoryUrl response
    document issuers :
  got 0 directoryUrl = inr response →
  JSON_parse (Response.body response) = inr document →
  asTrustedIssuers document = Some issuers →
  fetchDirectory got JSON_parse now schedule directoryUrl
  = fetchIssuers got JSON_parse now schedule directoryUrl issuers.
Proof. intros Hgot Hparse Htyped. unfold fetchDirectory. by rewrite Hgot, Hparse, Htyped. Qed.

Lemma fetchIssuers_fulfilled_allSettle got JSON_parse now schedule directoryUrl
    issuers log :
  fetchIssuers got JSON_parse now schedule directoryUrl issuers = Fulfilled log →
  allSettle schedule (length (TrustedIssuers.participating_issuers issuers)).
Proof.
  intros Hlog i Hi. destruct (decide (i ∈ schedule)) as [|Hn]; [done|].
  by rewrite (fetchIssuers_pending got JSON_parse now schedule directoryUrl
                issuers i Hi Hn) in Hlog.
Qed.

(** [X17]: for a directory that was fetched and parsed, the promise of
    [fetchDirectory] is fulfilled exactly when the request of every issuer
    has settled; while the request of one issuer has not settled it is
    pending, and no partial snapshot is returned. *)
Theorem fetchDirectory_fulfilled_iff_all_settled got JSON_parse now schedule
    directoryUrl response document issuers :
  got 0 directoryUrl = inr response →
  JSON_parse (Response.body response) = inr document →
  asTrustedIssuers document = Some issuers →
  ((∃ log, fetchDirectory got JSON_parse now schedule directoryUrl = Fulfilled log) ↔
   allSettle schedule (length (TrustedIssuers.participating_issuers issuers))) ∧
  (∀ i, i < length (TrustedIssuers.participating_issuers issuers) →
        i ∉ schedule →
        fetchDirectory got JSON_parse now schedule directoryUrl = Pending).
Proof.
  intros Hgot Hparse Htyped.
  rewrite (fetchDirectory_typed got JSON_parse now schedule directoryUrl
             response document issuers Hgot Hparse Htyped).
  split; [split|].
  - intros [log Hlog]. by eapply fetchIssuers_fulfilled_allSettle.
  - intros Hall. eexists. by apply fetchIssuers_allSettle.
  - intros i Hi Hn. by eapply fetchIssuers_pending.
Qed.

Lemma fetchDirectory_fulfilled_iff_all_settled_witness :
  fetchDirectory Demo.got Demo.JSON_parse "2021-01-01 00:00:00" [2; 2; 0; 7]
    "https://directory" = Pending.
Proof.
  apply (proj2 (fetchDirectory_fulfilled_iff_all_settled Demo.got Demo.JSON_parse
                  "2021-01-01 00:00:00" [2; 2; 0; 7] "https://directory"
                  (Response.mk Demo.directoryText) Demo.directoryValue Demo.issuers
                  eq_refl eq_refl eq_refl) 1).
  - simpl. lia.
  - apply (bool_decide_unpack _). exact I.
Defined.

(** [X18]: a snapshot that [fetchDirectory] returns carries the address it
    was asked for and the time of the run, and has one entry for each
    issuer; in every entry either [errors] is empty, or [errors] holds one
    text and [keys] is the empty array. *)
Theorem fetchDirectory_snapshot_shape got JSON_parse now schedule directoryUrl
    response document issuers log :
  got 0 directoryUrl = inr response →
  JSON_parse (Response.body response) = inr document →
  asTrustedIssuers document = Some issuers →
  fetchDirectory got JSON_parse now schedule directoryUrl = Fulfilled log →
  DirectoryLog.directory log = directoryUrl ∧
  DirectoryLog.time log = now ∧
  length (DirectoryLog.issuerInfo log)
  = length (TrustedIssuers.participating_issuers issuers) ∧
  Forall (λ info,
            IssuerLogInfo.errors info = Some [] ∨
            (IssuerLogInfo.keys info = Value.Array [] ∧
             ∃ text, IssuerLogInfo.errors info = Some [text]))
         (DirectoryLog.issuerInfo log).
Proof.
  intros Hgot Hparse Htyped Hlog.
  rewrite (fetchDirectory_typed got JSON_parse now schedule directoryUrl
             response document issuers Hgot Hparse Htyped) in Hlog.
  pose proof (fetchIssuers_fulfilled_allSettle _ _ _ _ _ _ _ Hlog) as Hall.
  rewrite (fetchIssuers_allSettle got JSON_parse now schedule directoryUrl
             issuers Hall) in Hlog.
  injection Hlog as <-. simpl. repeat split; [by rewrite length_imap|].
  apply Forall_lookup. intros i info.
  rewrite list_lookup_imap. destruct (_ !! i) as [issuer|]; [|done].
  simpl. intros [= <-].
  destruct (tryKeys JSON_parse (got (S i) (jwkURLOf issuer))) as [err|keys] eqn:E.
  - rewrite (fetchedEntry_thrown got JSON_parse _ _ _ E). right. simpl. eauto.
  - rewrite (fetchedEntry_keys got JSON_parse _ _ _ E). by left.
Qed.

Lemma fetchDirectory_snapshot_shape_witness :
  ∃ log,
    fetchDirectory Demo.got Demo.JSON_parse "2021-01-01 00:00:00" [1; 0; 2]
      "https://directory" = Fulfilled log ∧
    DirectoryLog.directory log = "https://directory" ∧
    DirectoryLog.time log = "2021-01-01 00:00:00" ∧
    length (DirectoryLog.issuerInfo log) = 3 ∧
    Forall (λ info,
              IssuerLogInfo.errors info = Some [] ∨
              (IssuerLogInfo.keys info = Value.Array [] ∧
               ∃ text, IssuerLogInfo.errors info = Some [text]))
           (DirectoryLog.issuerInfo log).
Proof.
  eexists. split; [reflexivity|].
  apply (fetchDirectory_snapshot_shape Demo.got Demo.JSON_parse
           "2021-01-01 00:00:00" [1; 0; 2] "https://directory"
           (Response.mk Demo.directoryText) Demo.directoryValue Demo.issuers);
    reflexivity.
Defined.

(** [X19]: when the key set of the issuer at index [i] is fetched and
    parses to a truthy document, the entry of the issuer has no error and
    its [keys] is what the document has under [keys], stored as it is. *)
Theorem fetchDirectory_stores_keys got JSON_parse now schedule directoryUrl
    response document issuers i issuer r keySet keys :
  got 0 directoryUrl = inr response →
  JSON_parse (Response.body response) = inr document →
  asTrustedIssuers document = Some issuers →
  allSettle schedule (length (TrustedIssuers.participating_issuers issuers)) →
  TrustedIssuers.participating_issuers issuers !! i = Some issuer →
  got (S i) (jwkURLOf issuer) = inr r →
  JSON_parse (Response.body r) = inr keySet →
  Value.truthy keySet = true →
  keysOf keySet = inr keys →
  ∃ log,
    fetchDirectory got JSON_parse now schedule directoryUrl = Fulfilled log ∧
    DirectoryLog.issuerInfo log !! i = Some (IssuerLogInfo.mk issuer keys (Some [])).
Proof.
  intros Hgot Hparse Htyped Hall Hissuer Hr HkeySet Htruthy Hkeys.
  eexists. split.
  - by apply (fetchDirectory_allSettle got JSON_parse now schedule directoryUrl
                response document issuers).
  - simpl. rewrite list_lookup_imap, Hissuer. simpl. f_equal.
    apply fetchedEntry_keys. unfold tryKeys. by rewrite Hr, HkeySet, Htruthy.
Qed.

Lemma fetchDirectory_stores_keys_witness :
  ∃ log,
    fetchDirectory Demo.got Demo.JSON_parse "2021-01-01 00:00:00" [2; 0; 1]
      "https://directory" = Fulfilled log ∧
    DirectoryLog.issuerInfo log !! 2
    = Some (IssuerLogInfo.mk (TrustedIssuer.mk "https://c" "C")
              (Value.Array [Value.Object [("kid", Value.Str "k1")]]) (Some [])).
Proof.
  apply (fetchDirectory_stores_keys Demo.got Demo.JSON_parse
           "2021-01-01 00:00:00" [2; 0; 1] "https://directory"
           (Response.mk Demo.directoryText) Demo.directoryValue Demo.issuers
           2 (TrustedIssuer.mk "https://c" "C") (Response.mk Demo.keySetText)
           Demo.keySetValue);
    [reflexivity | reflexivity | reflexivity | exact allSettle_demo
    | reflexivity | reflexivity | reflexivity | reflexivity | reflexivity].
Defined.

(** [X20]: when the key set of the issuer at index [i] is fetched and
    parses to a falsy document ([null], [false], [0] or the empty string),
    the entry of the issuer has [keys = []] and the one error text
    [Failed to parse JSON KeySet schema]. *)
Theorem fetchDirectory_falsy_key_set got JSON_parse now schedule directoryUrl
    response document issuers i issuer r keySet :
  got 0 directoryUrl = inr response →
  JSON_parse (Response.body response) = inr document →
  asTrustedIssuers document = Some issuers →
  allSettle schedule (length (TrustedIssuers.participating_issuers issuers)) →
  TrustedIssuers.participating_issuers issuers !! i = Some issuer →
  got (S i) (jwkURLOf issuer) = inr r →
  JSON_parse (Response.body r) = inr keySet →
  Value.truthy keySet = false →
  ∃ log,
    fetchDirectory got JSON_parse now schedule directoryUrl = Fulfilled log ∧
    DirectoryLog.issuerInfo log !! i
    = Some (IssuerLogInfo.mk issuer (Value.Array [])
              (Some ["Failed to parse JSON KeySet schema"])).
Proof.
  intros Hgot Hparse Htyped Hall Hissuer Hr HkeySet Hfalsy.
  eexists. split.
  - by apply (fetchDirectory_allSettle got JSON_parse now schedule directoryUrl
                response document issuers).
  - simpl. rewrite list_lookup_imap, Hissuer. simpl. f_equal.
    apply (fetchedEntry_thrown got JSON_parse i issuer
             (Thrown.Text "Failed to parse JSON KeySet schema")).
    unfold tryKeys. by rewrite Hr, HkeySet, Hfalsy.
Qed.

Lemma fetchDirectory_falsy_key_set_witness :
  ∃ log,
    fetchDirectory DemoNull.got DemoNull.JSON_parse "2021-01-01 00:00:00" [2; 0; 1]
      "https://directory" = Fulfilled log ∧
    DirectoryLog.issuerInfo log !! 1
    = Some (IssuerLogInfo.mk (TrustedIssuer.mk "https://b" "B") (Value.Array [])
              (Some ["Failed to parse JSON KeySet schema"])).
Proof.
  apply (fetchDirectory_falsy_key_set DemoNull.got DemoNull.JSON_parse
           "2021-01-01 00:00:00" [2; 0; 1] "https://directory"
           (Response.mk Demo.directoryText) Demo.directoryValue Demo.issuers
           1 (TrustedIssuer.mk "https://b" "B") (Response.mk "null") Value.Null);
    [reflexivity | reflexivity | reflexivity | exact allSettle_demo
    | reflexivity | reflexivity | reflexivity | reflexivity].
Defined.

(** ** Loading the previous log *)






(** ** Program options *)

Lemma notGiven_Some_false s : s ≠ "" → notGiven (Some s) = false.
Proof. by destruct s. Qed.

(** [X23]: when [path.join] does not return the empty string, the options
    [directory], [directorylog] and [auditlog] are all given after the
    defaults were filled in; an option that was given with a non-empty
    value keeps it, an option that was not given or was given as the empty
    string gets its default; [previous] and [test] are not touched, and
    filling in the defaults once more changes nothing. *)
Theorem processOptions_defaults path_join fileStamp options :
  (∀ a b, path_join a b ≠ "") →
  let processed := processOptions path_join fileStamp options in
  notGiven (Options.directory processed) = false ∧
  notGiven (Options.directorylog processed) = false ∧
  notGiven (Options.auditlog processed) = false ∧
  Options.directory processed
  = (if notGiven (Options.directory options) then Some VCI_ISSUERS_DIR_URL
     else Options.directory options) ∧
  Options.directorylog processed
  = (if notGiven (Options.directorylog options)
     then Some (path_join "logs" ("directory_log_" +:+ fileStamp +:+ ".json"))
     else Options.directorylog options) ∧
  Options.auditlog processed
  = (if notGiven (Options.auditlog options)
     then Some (path_join "logs" ("audit_log_" +:+ fileStamp +:+ ".json"))
     else Options.auditlog options) ∧
  Options.previous processed = Options.previous options ∧
  Options.test processed = Options.test options ∧
  processOptions path_join fileStamp processed = processed.
Proof.
  intros Hjoin processed.
  assert (notGiven (Options.directory processed) = false) as Hd.
  { unfold processed, processOptions. simpl.
    destruct (notGiven (Options.directory options)) eqn:E; [done | exact E]. }
  assert (notGiven (Options.directorylog processed) = false) as Hl.
  { unfold processed, processOptions. simpl.
    destruct (notGiven (Options.directorylog options)) eqn:E; [|exact E].
    apply notGiven_Some_false, Hjoin. }
  assert (notGiven (Options.auditlog processed) = false) as Ha.
  { unfold processed, processOptions. simpl.
    destruct (notGiven (Options.auditlog options)) eqn:E; [|exact E].
    apply notGiven_Some_false, Hjoin. }
  repeat split; try done.
  unfold processOptions at 1. rewrite Hd, Hl, Ha. by destruct processed.
Qed.

Lemma posixJoin_not_empty a b : posixJoin a b ≠ "".
Proof. unfold posixJoin. by destruct a. Qed.

Lemma processOptions_defaults_witness :
  processOptions posixJoin "2021-01-01-000000"
    (Options.mk None None (Some "") (Some "https://directory") true)
  = Options.mk (Some "logs/directory_log_2021-01-01-000000.json") None
               (Some "logs/audit_log_2021-01-01-000000.json")
               (Some "https://directory") true ∧
  processOptions posixJoin "2021-01-01-000000"
    (processOptions posixJoin "2021-01-01-000000"
       (Options.mk None None (Some "") (Some "https://directory") true))
  = processOptions posixJoin "2021-01-01-000000"
      (Options.mk None None (Some "") (Some "https://directory") true).
Proof.
  split; [reflexivity|].
  apply (processOptions_defaults posixJoin "2021-01-01-000000"
           (Options.mk None None (Some "") (Some "https://directory") true)
           posixJoin_not_empty).
Defined.

(** ** [audit]: duplicated identifiers and names *)

Lemma bind_singleton_fmap {A} (f : A → string) (l : list A) :
  l ≫= (λ x, [f x]) = f <$> l.
Proof. induction l as [|x l IH]; [done|]. by rewrite bind_cons, IH. Qed.

Lemma count_fmap_two {A} (f : A → string) (l : list A) i j p q :
  i ≠ j → l !! i = Some p → l !! j = Some q → f p = f q →
  2 ≤ count (f <$> l) (f p).
Proof.
  intros Hij Hp Hq Heq. rewrite <- bind_singleton_fmap.
  assert (count [f p] (f p) = 1) as H1 by (by rewrite count_cons_eq).
  assert (count [f q] (f p) = 1) as H2 by (by rewrite Heq, count_cons_eq).
  destruct (decide (i < j)) as [Hlt|Hge].
  - pose proof (count_bind_two (λ x, [f x]) l i j p q (f p) Hlt Hp Hq). lia.
  - assert (j < i) as Hlt by lia.
    pose proof (count_bind_two (λ x, [f x]) l j i q p (f p) Hlt Hq Hp). lia.
Qed.

(** [X24]: when two entries of the current snapshot have the same
    normalized identifier, and it is not empty, it is in [duplicatedIss];
    when they have the same name, and it is not empty, it is in
    [duplicatedNames]. *)
Theorem audit_duplicated_iss_and_names isTest (current : Directory) previous
    i j p q :
  i ≠ j →
  DirectoryLog.issuerInfo current !! i = Some p →
  DirectoryLog.issuerInfo current !! j = Some q →
  (normalizedIss isTest p = normalizedIss isTest q →
   normalizedIss isTest p ≠ "" →
   normalizedIss isTest p ∈ AuditLog.duplicatedIss (audit isTest current previous)) ∧
  (TrustedIssuer.name (IssuerLogInfo.issuer p)
   = TrustedIssuer.name (IssuerLogInfo.issuer q) →
   TrustedIssuer.name (IssuerLogInfo.issuer p) ≠ "" →
   TrustedIssuer.name (IssuerLogInfo.issuer p)
   ∈ AuditLog.duplicatedNames (audit isTest current previous)).
Proof.
  intros Hij Hp Hq. split; intros Heq Hne.
  - assert (AuditLog.duplicatedIss (audit isTest current previous)
            = getDuplicates (getIssuers isTest current)) as ->
      by (by destruct previous).
    apply elem_of_getDuplicates. split; [done|]. rewrite getIssuers_map.
    by apply (count_fmap_two (normalizedIss isTest) _ i j p q).
  - assert (AuditLog.duplicatedNames (audit isTest current previous)
            = getDuplicates
                ((λ info, TrustedIssuer.name (IssuerLogInfo.issuer info))
                   <$> DirectoryLog.issuerInfo current)) as ->
      by (by destruct previous).
    apply elem_of_getDuplicates. split; [done|].
    by apply (count_fmap_two
                (λ info, TrustedIssuer.name (IssuerLogInfo.issuer info)) _ i j p q).
Qed.

Lemma audit_duplicated_iss_and_names_witness :
  "x/audit" ∈ AuditLog.duplicatedIss
                (audit true (logOf [entry "x/audit-1" []; entry "x/audit-2" []]) None).
Proof.
  apply (audit_duplicated_iss_and_names true
           (logOf [entry "x/audit-1" []; entry "x/audit-2" []]) None
           0 1 (entry "x/audit-1" []) (entry "x/audit-2" []));
    [lia | reflexivity | reflexivity | reflexivity | discriminate].
Defined.

(** ** [fetchDirectory]: the addresses it asks for *)

(** [X25]: the snapshot depends on the network only through the request
    for the directory and, for the issuer at index [i], the outcome of
    request [S i] for the address [iss + "/.well-known/jwks.json"]: two
    networks that agree on these give the same promise, for every
    schedule. *)
Theorem fetchDirectory_asks_only_for_jwks got got' JSON_parse now schedule
    directoryUrl response document issuers :
  got 0 directoryUrl = inr response →
  JSON_parse (Response.body response) = inr document →
  asTrustedIssuers document = Some issuers →
  got' 0 directoryUrl = got 0 directoryUrl →
  (∀ i issuer,
     TrustedIssuers.participating_issuers issuers !! i = Some issuer →
     got' (S i) (TrustedIssuer.iss issuer +:+ "/.well-known/jwks.json")
     = got (S i) (TrustedIssuer.iss issuer +:+ "/.well-known/jwks.json")) →
  fetchDirectory got' JSON_parse now schedule directoryUrl
  = fetchDirectory got JSON_parse now schedule directoryUrl.
Proof.
  intros Hgot Hparse Htyped Hdir Hsame.
  rewrite (fetchDirectory_typed got JSON_parse now schedule directoryUrl
             response document issuers Hgot Hparse Htyped).
  rewrite (fetchDirectory_typed got' JSON_parse now schedule directoryUrl
             response document issuers); [|by rewrite Hdir|done|done].
  unfold fetchIssuers.
  enough (runSchedule got' JSON_parse schedule
            (imap (λ i issuer, startIssuer (S i) issuer)
                  (TrustedIssuers.participating_issuers issuers))
          = runSchedule got JSON_parse schedule
              (imap (λ i issuer, startIssuer (S i) issuer)
                    (TrustedIssuers.participating_issuers issuers))) as -> by done.
  apply list_eq. intros i. rewrite !runSchedule_lookup, !list_lookup_imap.
  destruct (TrustedIssuers.participating_issuers issuers !! i) as [issuer|] eqn:E;
    [|done].
  simpl. case_decide; [|done]. simpl. by rewrite (Hsame i issuer E).
Qed.

Lemma fetchDirectory_asks_only_for_jwks_witness :
  fetchDirectory
    (λ request url,
       if String.eqb url "https://directory" then Demo.got request url
       else if String.eqb url "https://a/.well-known/jwks.json" then Demo.got request url
       else if String.eqb url "https://b/.well-known/jwks.json" then Demo.got request url
       else if String.eqb url "https://c/.well-known/jwks.json" then Demo.got request url
       else inl (Thrown.Error "RequestError" "not asked for"))
    Demo.JSON_parse "2021-01-01 00:00:00" [0; 2; 1] "https://directory"
  = fetchDirectory Demo.got Demo.JSON_parse "2021-01-01 00:00:00" [0; 2; 1]
      "https://directory".
Proof.
  apply (fetchDirectory_asks_only_for_jwks Demo.got _ Demo.JSON_parse
           "2021-01-01 00:00:00" [0; 2; 1] "https://directory"
           (Response.mk Demo.directoryText) Demo.directoryValue Demo.issuers);
    [reflexivity | reflexivity | reflexivity | reflexivity |].
  intros i issuer Hi.
  destruct i as [|[|[|i]]]; simpl in Hi; [| | |done]; by injection Hi as <-.
Defined.
